(** * fastify-openapi-glue: schema normalisation, service resolution and
      the access-control hook of [index.js]

    The development follows [index.js] top down:

    - [Js]       the fragment of JavaScript values and strings the plugin
                 manipulates (JSON values, a store of mutable objects,
                 [String.prototype.split], template literals); the
                 engine's [String.prototype.toLowerCase] is a parameter;
    - [Schema]   [isObject], [unknownFormats] and [stripResponseFormats],
                 which mutates the response schema objects in place;
    - [Config]   the parsed route table and the plugin options;
    - [Gate]     [checkJWT], [checkAccess] and the [preValidation] hook,
                 written in a small state-and-exception monad over the
                 request, the reply and the trace of external calls;
    - [Routes]   the body of [generateRoutes]: one pass over
                 [config.routes] that normalises, resolves the service
                 callable, installs the hook or the stub, and registers;
    - [Examples] an engine, a verifier, a service object, a store and
                 some requests.

    External collaborators ([jwt.verify], [ip.cidrSubnet], the schema
    validator, the host server) are parameters or small models that are
    marked as such.  The properties come after the definitions: first the
    normaliser, then the hook, then route generation, and last the
    statements on the inputs of [Examples]. *)

From Stdlib Require Import ZArith String Ascii List Bool Lia.
From stdpp Require Import base option list gmap strings pretty.

(* ===================================================================== *)
(** ** JavaScript values                                                  *)
(* ===================================================================== *)

Module Js.

(** Objects live in a store and are referred to by location: two
    properties holding the same [VRef] alias the same object, and an
    assignment through one is seen through the other.  Arrays are never
    assigned to by [index.js], so they are kept as immutable values. *)
Definition loc := nat.

#[warnings="-register-all"]
Inductive value : Type :=
| VUndefined
| VNull
| VBool (b : bool)
| VNum (n : Z)          (* the integers among the JSON numbers *)
| VStr (s : string)
| VArr (elems : list value)
| VRef (l : loc).

(** Own enumerable properties of an object, in [for ... in] order. *)
Abbreviation object := (list (string * value)).
Abbreviation heap := (gmap loc object).

(** A property key is a name or an array index. *)
Inductive key : Type :=
| KName (s : string)
| KIndex (i : nat).

(** ToBoolean. *)
Definition truthy (v : value) : bool :=
  match v with
  | VUndefined | VNull => false
  | VBool b => b
  | VNum n => negb (n =? 0)%Z
  | VStr s => negb (String.eqb s "")
  | VArr _ | VRef _ => true
  end.

(** First binding of a name in a property list. *)
Fixpoint lookupProp (name : string) (o : object) : option value :=
  match o with
  | [] => None
  | (k, v) :: o' => if String.eqb k name then Some v else lookupProp name o'
  end.

(** [o[name] = x] on a property list: overwrite the binding, or add it
    at the end when the object has none. *)
Fixpoint setProp (name : string) (x : value) (o : object) : object :=
  match o with
  | [] => [(name, x)]
  | (k, v) :: o' =>
      if String.eqb k name then (k, x) :: o' else (k, v) :: setProp name x o'
  end.

(** The one-character strings of a string, as [for ... in] sees them. *)
Fixpoint chars (s : string) : list string :=
  match s with
  | EmptyString => []
  | String c s' => String c EmptyString :: chars s'
  end.

(** [v[k]].  A location without an object in the store has no property. *)
Definition getProp (h : heap) (v : value) (k : key) : value :=
  match v, k with
  | VRef l, KName name =>
      match h !! l with
      | Some o => default VUndefined (lookupProp name o)
      | None => VUndefined
      end
  | VArr elems, KIndex i => default VUndefined (elems !! i)
  | VArr elems, KName name =>
      if String.eqb name "length" then VNum (Z.of_nat (length elems))
      else VUndefined
  | VStr s, KIndex i => default VUndefined (VStr <$> chars s !! i)
  | _, _ => VUndefined
  end.

(** The keys a [for (let item in v)] loop enumerates. *)
Definition forInKeys (h : heap) (v : value) : list key :=
  match v with
  | VRef l =>
      match h !! l with
      | Some o => KName <$> o.*1
      | None => []
      end
  | VArr elems => KIndex <$> seq 0 (length elems)
  | VStr s => KIndex <$> seq 0 (length (chars s))
  | _ => []
  end.

(** [v.name = x].  Only objects of the store are ever assigned to. *)
Definition assign (h : heap) (v : value) (name : string) (x : value) : heap :=
  match v with
  | VRef l =>
      match h !! l with
      | Some o => <[l := setProp name x o]> h
      | None => h
      end
  | _ => h
  end.

(** [Array.prototype.join] with a one-character separator. *)
Fixpoint join (sep : string) (parts : list string) : string :=
  match parts with
  | [] => ""
  | [p] => p
  | p :: ps => p +:+ sep +:+ join sep ps
  end.

(** ToPropertyKey on JSON values: a string is its own key, a plain
    object prints as [[object Object]], and an array prints as the
    comma-join of its elements, where [null] and [undefined] print as the
    empty string.  Integers print in decimal.  Objects with a [toString]
    property of their own are outside this fragment. *)
Fixpoint toPropertyKey (v : value) : string :=
  match v with
  | VUndefined => "undefined"
  | VNull => "null"
  | VBool true => "true"
  | VBool false => "false"
  | VNum n => pretty n
  | VStr s => s
  | VRef _ => "[object Object]"
  | VArr elems =>
      join ","
        ((fix elemStrings (vs : list value) : list string :=
            match vs with
            | [] => []
            | VUndefined :: vs' | VNull :: vs' => "" :: elemStrings vs'
            | w :: vs' => toPropertyKey w :: elemStrings vs'
            end) elems)
  end.

(** [s.split(sep)] for a one-character separator: never empty, and
    adjacent separators give empty pieces. *)
Fixpoint split (sep : ascii) (s : string) : list string :=
  match s with
  | EmptyString => [""%string]
  | String c s' =>
      if Ascii.eqb c sep then ""%string :: split sep s'
      else match split sep s' with
           | piece :: pieces => String c piece :: pieces
           | [] => [String c EmptyString]
           end
  end.

(** [arr.includes(word)] on an array of strings. *)
Definition includes (word : string) (arr : list string) : bool :=
  existsb (String.eqb word) arr.

(** A string-or-undefined inside a template literal. *)
Definition interpolate (s : option string) : string := default "undefined" s.

(** What the plugin uses of the engine's library beyond the functions
    above: [s.toLowerCase()], which maps every cased letter of every
    script.  It is left to the engine and no property of it is assumed;
    strings are byte sequences (the UTF-8 of the JavaScript string), on
    which splitting at an ASCII character and concatenation are what
    they are on the JavaScript string. *)
Class Engine := {
  toLowerCase : string → string
}.

(** A thrown [Error]: the two fields the plugin reads. *)
Record Error := mkError { err_name : string; err_message : string }.

(** Reading a property of [undefined], as V8 words it. *)
Definition TypeError_undefined (prop : string) : Error :=
  mkError "TypeError"
          ("Cannot read properties of undefined (reading '" +:+ prop +:+ "')").

Inductive result (A : Type) : Type :=
| Ok (a : A)
| Throw (e : Error).
Arguments Ok {A} a.
Arguments Throw {A} e.

End Js.
Export Js.

(* ===================================================================== *)
(** ** The schema normaliser                                              *)
(* ===================================================================== *)

Module Schema.

(** [typeof obj === 'object' && obj !== null]. *)
Definition isObject (obj : value) : bool :=
  match obj with
  | VArr _ | VRef _ => true
  | _ => false
  end.

(** Names every object literal inherits from [Object.prototype]; a lookup
    of one of them in [unknownFormats] is truthy as well. *)
Definition objectPrototypeNames : list string :=
  [ "constructor"; "toString"; "toLocaleString"; "valueOf";
    "hasOwnProperty"; "isPrototypeOf"; "propertyIsEnumerable";
    "__proto__"; "__defineGetter__"; "__defineSetter__";
    "__lookupGetter__"; "__lookupSetter__" ]%string.

(** Truthiness of [unknownFormats[k]], for
    [const unknownFormats = { int32: true, int64: true }]. *)
Definition unknownFormats (k : string) : bool :=
  includes k ["int32"; "int64"]%string || includes k objectPrototypeNames.

(** The guard [schema[item].format && unknownFormats[schema[item].format]]
    as a function of the [format] value. *)
Definition unknownFormat (format : value) : bool :=
  truthy format && unknownFormats (toPropertyKey format).

(** A loop body run over the enumerated keys; [None] is an exhausted
    recursion budget. *)
Fixpoint forIn {St : Type} (body : key → St → option St) (keys : list key)
    (s : St) : option St :=
  match keys with
  | [] => Some s
  | item :: keys' =>
      match body item s with
      | Some s' => forIn body keys' s'
      | None => None
      end
  end.

(** [stripResponseFormats(schema)].  The recursion follows references
    through the store, so it carries a budget; [stripResponseFormats_total]
    shows that on an acyclic store a budget above the rank of [schema]
    is always enough. *)
Fixpoint stripResponseFormats (fuel : nat) (schema : value) (h : heap)
    : option heap :=
  match fuel with
  | O => None
  | S fuel' =>
      forIn
        (fun item h1 =>
           let child := getProp h1 schema item in
           if isObject child then
             let h2 :=
               if unknownFormat (getProp h1 child (KName "format"))
               then assign h1 child "format" VUndefined
               else h1 in
             stripResponseFormats fuel' child h2
           else Some h1)
        (forInKeys h schema) h
  end.

(** The guarded assignment of the loop body, on its own. *)
Definition clearFormat (h : heap) (child : value) : heap :=
  if unknownFormat (getProp h child (KName "format"))
  then assign h child "format" VUndefined else h.

(** *** Nodes of a schema *)

(** [w] is an object-valued property of [v]. *)
Definition childOf (h : heap) (v w : value) : Prop :=
  ∃ k, k ∈ forInKeys h v ∧ getProp h v k = w ∧ isObject w = true.

(** [w] is nested under [v]: reached through one or more properties. *)
Inductive nested (h : heap) : value → value → Prop :=
| nested_child v w : childOf h v w → nested h v w
| nested_step v c w : childOf h v c → nested h c w → nested h v w.

(** The two integer formats that [unknownFormats] lists. *)
Definition unsupportedFormat (format : value) : Prop :=
  format = VStr "int32" ∨ format = VStr "int64".

(** The value is a reference, or an array that holds one at some depth. *)
Fixpoint holdsRef (v : value) : bool :=
  match v with
  | VRef _ => true
  | VArr elems =>
      (fix anyRef (vs : list value) : bool :=
         match vs with
         | [] => false
         | w :: vs' => holdsRef w || anyRef vs'
         end) elems
  | _ => false
  end.

(** The string has an opening bracket. *)
Fixpoint hasBracket (s : string) : bool :=
  match s with
  | EmptyString => false
  | String c s' => Ascii.eqb c "[" || hasBracket s'
  end.

(** *** Acyclic stores *)

(** Rank of a value under a ranking of the locations; an array ranks
    above its elements. *)
Fixpoint vrank (rank : loc → nat) (v : value) : nat :=
  match v with
  | VRef l => rank l
  | VArr elems =>
      S ((fix maxRank (vs : list value) : nat :=
            match vs with
            | [] => 0
            | w :: vs' => Nat.max (vrank rank w) (maxRank vs')
            end) elems)
  | _ => 0
  end.

(** The store is acyclic: every object ranks strictly above the values
    of its properties. *)
Definition acyclic (rank : loc → nat) (h : heap) : Prop :=
  map_Forall (λ l (o : object), Forall (λ kv, vrank rank kv.2 < rank l) o) h.

(** *** How the pass may change the store *)

(** The only change to an object: some [format] bindings that the guard
    of the loop accepts now hold [undefined]. *)
Definition objCleared (o o' : object) : Prop :=
  Forall2 (λ kv kv' : string * value,
             kv' = kv
             ∨ (kv.1 = "format"%string ∧ unknownFormat kv.2 = true
                ∧ kv' = ("format"%string, VUndefined)))
          o o'.

Definition heapCleared (h h' : heap) : Prop :=
  ∀ l, option_Forall2 objCleared (h !! l) (h' !! l).

(** The locations a value reaches: itself when it is a reference, and
    every object nested under it. *)
Definition reaches (h : heap) (v : value) (l : loc) : Prop :=
  v = VRef l ∨ nested h v (VRef l).

End Schema.
Export Schema.


(* ===================================================================== *)
(** ** The parsed route table and the plugin options                      *)
(* ===================================================================== *)

Module Config.

(** [item.schema]: the operation identifier copied from the
    specification (absent when the operation declares none), the request
    schemas, and the response schemas by status code. *)
Record RouteSchema := {
  schema_operationId : option string;
  body : value;
  querystring : value;
  params : value;
  headers : value;
  response : value
}.

(** [item.openapiSource]: the raw operation; only the auth-type list is
    read.  [None] is a missing ['x-AuthType'] key. *)
Record OpenapiSource := {
  x_AuthType : option (list string)
}.

(** One entry of [config.routes]. *)
Record Item := {
  operationId : string;
  url : string;
  method : string;
  schema : option RouteSchema;
  openapiSource : OpenapiSource
}.

(** [opts.metrics]: the counters by key, and [suffix.total]. *)
Record Metrics := {
  counters : gset string;
  suffix_total : string
}.

(** The options the hook reads on every request. *)
Record Options := {
  checkToken : bool;
  publicKey : string;
  metrics : option Metrics
}.

(** The request schemas of a route. *)
Definition requestSchemas (sch : RouteSchema) : list value :=
  [body sch; querystring sch; params sch; headers sch].

End Config.
Export Config.

(* ===================================================================== *)
(** ** The access-control hook                                            *)
(* ===================================================================== *)

Module Gate.

(** The claims [checkJWT] reads from a verified payload. *)
Record Payload := {
  IpList : option (list string);
  Role : value;
  EntityId : value;
  EntityType : value
}.

(** The request as the hook sees it: the headers, the peer address
    ([request.req.ip]) and the slots the hook stamps. *)
Record Request := {
  req_headers : gmap string string;
  req_ip : string;
  controllerName : option string;
  xAuthTypes : option (list string);
  Roles : value;
  req_EntityId : value;
  req_EntityType : value
}.

(** The collaborators outside the plugin: [jwt.verify] with the RS256
    algorithm, [ip.cidrSubnet(range).contains(address)] on well-formed
    ranges, and the schema validator of the host server. *)
Class External := {
  jwt_verify : option string → string → result Payload;
  cidr_contains : string → string → bool;
  validates : Item → Request → bool
}.

(** [reply.code(code).send({ Status, Description })]. *)
Record Reply := {
  code : nat;
  Status : nat;
  Description : string
}.

(** A service callable is known by its identity. *)
Definition callable := nat.

(** Calls that leave the plugin, in the order they are made. *)
Inductive event : Type :=
| OpenapiFailures (message : string)
| JwtVerify (token : option string)
| Mark (counter : string)
| Send (r : Reply)
| HandlerInvoked
| ServiceCall (f : callable).

Record World := {
  request : Request;
  reply : option Reply;
  trace : list event
}.

(** Computations that read and write the world and may throw; what was
    written before a throw stays written. *)
Definition M (A : Type) : Type := World → result A * World.

Definition ret {A} (a : A) : M A := λ w, (Ok a, w).

Definition bind {A B} (m : M A) (f : A → M B) : M B :=
  λ w, match m w with
       | (Ok a, w') => f a w'
       | (Throw e, w') => (Throw e, w')
       end.

Definition throw {A} (e : Error) : M A := λ w, (Throw e, w).

Definition tryCatch {A} (m : M A) (handler : Error → M A) : M A :=
  λ w, match m w with
       | (Ok a, w') => (Ok a, w')
       | (Throw e, w') => handler e w'
       end.

Definition getRequest : M Request := λ w, (Ok (request w), w).

Definition setRequest (f : Request → Request) : M unit :=
  λ w, (Ok tt, {| request := f (request w); reply := reply w; trace := trace w |}).

Definition emit (e : event) : M unit :=
  λ w, (Ok tt, {| request := request w; reply := reply w; trace := trace w ++ [e] |}).

Declare Scope gate_scope.
Delimit Scope gate_scope with gate.
Notation "'let*' x ':=' m 'in' k" := (bind m (λ x, k))
  (at level 10, x name, m at level 100, k at level 200) : gate_scope.
Notation "m '>>' k" := (bind m (λ _, k))
  (at level 100, k at level 200, right associativity) : gate_scope.
Local Open Scope gate_scope.

(** [reply.code(c).send({ Status: s, Description: d })]; only the first
    reply of a request goes out. *)
Definition send (c s : nat) (d : string) : M unit :=
  let r := {| code := c; Status := s; Description := d |} in
  λ w, (Ok tt, {| request := request w;
                  reply := match reply w with Some r0 => Some r0 | None => Some r end;
                  trace := trace w ++ [Send r] |}).

(** [x || 'not provided']. *)
Definition orNotProvided (x : value) : value :=
  if truthy x then x else VStr "not provided".

(** The assignments that stamp the request:
    [request.controllerName = ...], [request.xAuthTypes = ...] and the
    three claims copied from the payload. *)
Definition withControllerName (name : string) (r : Request) : Request :=
  {| req_headers := req_headers r; req_ip := req_ip r;
     controllerName := Some name; xAuthTypes := xAuthTypes r; Roles := Roles r;
     req_EntityId := req_EntityId r; req_EntityType := req_EntityType r |}.

Definition withAuthTypes (declared : list string) (r : Request) : Request :=
  {| req_headers := req_headers r; req_ip := req_ip r;
     controllerName := controllerName r; xAuthTypes := Some declared;
     Roles := Roles r;
     req_EntityId := req_EntityId r; req_EntityType := req_EntityType r |}.

Definition withClaims (payload : Payload) (r : Request) : Request :=
  {| req_headers := req_headers r; req_ip := req_ip r;
     controllerName := controllerName r; xAuthTypes := xAuthTypes r;
     Roles := Role payload;
     req_EntityId := orNotProvided (EntityId payload);
     req_EntityType := orNotProvided (EntityType payload) |}.

Section Hook.

Context `{External}.
Variable opts : Options.

(** [await global.mq.openapiFailures(request, null, message)]. *)
Definition openapiFailures (message : string) : M unit :=
  emit (OpenapiFailures message).

(** [jwt.verify(token, opts.publicKey, { algorithms: ['RS256'] })]. *)
Definition verify (token : option string) : M Payload :=
  emit (JwtVerify token) >>
  match jwt_verify token (publicKey opts) with
  | Ok payload => ret payload
  | Throw e => throw e
  end.

Definition checkJWT (entity : option string) : M unit :=
  let* request := getRequest in
  let authorization := req_headers request !! "authorization"%string in
  let* token :=
    match authorization with
    | Some header => ret (split " " header !! 1)
    | None => throw (TypeError_undefined "split")
    end in
  (if negb (bool_decide (is_Some authorization)) then
     let message := "Missing authorization header for " +:+ interpolate entity in
     openapiFailures message >>
     throw (mkError "Error" message)
   else ret tt) >>
  tryCatch
    (let* payload := verify token in
     (match IpList payload with
      | Some ipList =>
          if negb (length ipList =? 0) then
            let ipInAllowedRange :=
              existsb (λ ipRange, cidr_contains ipRange (req_ip request)) ipList in
            if negb ipInAllowedRange then
              throw (mkError "Error" "IP address if out of range you permit for")
            else ret tt
          else ret tt
      | None => ret tt
      end) >>
     setRequest (withClaims payload))
    (λ error,
       let message :=
         err_name error +:+ " " +:+ err_message error +:+ " for "
         +:+ interpolate entity in
       throw (mkError "Error" message)).

Definition checkAccess (item : Item) : M unit :=
  match schema item with
  | Some schema =>
      match x_AuthType (openapiSource item) with
      | Some xAuthTypes =>
          let even := λ element, String.eqb element "None" in
          if negb (length xAuthTypes =? 0) && negb (existsb even xAuthTypes)
          then
            setRequest (withAuthTypes xAuthTypes) >>
            checkJWT (schema_operationId schema)
          else ret tt
      | None => throw (TypeError_undefined "length")
      end
  | None => ret tt
  end.

(** The counter step that opens the hook. *)
Definition markMetrics (ServiceRouteName controllerName : string) : M unit :=
  match metrics opts with
  | Some m =>
      if bool_decide (ServiceRouteName +:+ suffix_total m ∈ counters m) then
        if bool_decide (controllerName +:+ suffix_total m ∈ counters m)
        then emit (Mark (controllerName +:+ suffix_total m))
        else throw (TypeError_undefined "mark")
      else ret tt
  | None => ret tt
  end.

(** The [catch] block of the hook. *)
Definition catchAccessError (error : Error) : M unit :=
  if includes "expired" (split " " (err_message error))
  then send 440 440 (err_message error)
  else send 401 401 (err_message error).

(** [item.preValidation], with the variables its closure captures. *)
Definition preValidation (item : Item) (ServiceRouteName controllerName : string)
    : M unit :=
  markMetrics ServiceRouteName controllerName >>
  setRequest (withControllerName ServiceRouteName) >>
  tryCatch
    (if checkToken opts then checkAccess item else ret tt)
    catchAccessError.

End Hook.

(** The guards on the way from the hook to [checkJWT]: [opts.checkToken],
    [item.schema], [xAuthTypes.length] and [!xAuthTypes.some(even)]. *)
Definition gateCondition (opts : Options) (item : Item) : bool :=
  checkToken opts
  && bool_decide (is_Some (schema item))
  && match x_AuthType (openapiSource item) with
     | Some xAuthTypes =>
         negb (length xAuthTypes =? 0)
         && negb (existsb (λ element, String.eqb element "None") xAuthTypes)
     | None => false
     end.

(** The counter step of the hook finds the counter it marks. *)
Definition metricsSafe (opts : Options) (ServiceRouteName controllerName : string)
    : bool :=
  match metrics opts with
  | Some m =>
      implb (bool_decide (ServiceRouteName +:+ suffix_total m ∈ counters m))
            (bool_decide (controllerName +:+ suffix_total m ∈ counters m))
  | None => true
  end.

(** The world in which the hook reaches its [try]: the counter marked
    when there is one, and the request labelled. *)
Definition entered (opts : Options) (ServiceRouteName controllerName : string)
    (w : World) : World :=
  {| request := withControllerName ServiceRouteName (request w);
     reply := reply w;
     trace := trace w ++
       match metrics opts with
       | Some m =>
           if bool_decide (ServiceRouteName +:+ suffix_total m ∈ counters m)
           then [Mark (controllerName +:+ suffix_total m)] else []
       | None => []
       end |}.

(** The test of the hook's [catch] on a message. *)
Definition expiredWord (message : string) : bool :=
  includes "expired" (split " " message).

(** The reply of the hook's [catch] for a message. *)
Definition denial (message : string) : Reply :=
  if expiredWord message
  then {| code := 440; Status := 440; Description := message |}
  else {| code := 401; Status := 401; Description := message |}.

(** The message [checkJWT] rethrows for an error caught in its [try]. *)
Definition rethrown (error : Error) (entity : option string) : string :=
  err_name error +:+ " " +:+ err_message error +:+ " for " +:+ interpolate entity.

(** The world with its request replaced. *)
Definition withRequest (f : Request → Request) (w : World) : World :=
  {| request := f (request w); reply := reply w; trace := trace w |}.

(** The world with one more call in its trace. *)
Definition withEvent (ev : event) (w : World) : World :=
  {| request := request w; reply := reply w; trace := trace w ++ [ev] |}.

(** The world after the hook's [catch] has answered. *)
Definition denied (message : string) (w : World) : World :=
  {| request := request w;
     reply := match reply w with
              | Some r0 => Some r0
              | None => Some (denial message)
              end;
     trace := trace w ++ [Send (denial message)] |}.

(** What the trace of a world shows. *)
Definition notified (w : World) : Prop := ∃ message, OpenapiFailures message ∈ trace w.

Definition handlerInvoked (w : World) : Prop := HandlerInvoked ∈ trace w.

(** What [jwt.verify] throws for a token past its expiry. *)
Definition TokenExpiredError : Error := mkError "TokenExpiredError" "jwt expired".

(** What [checkJWT] throws for a caller outside every allowed range. *)
Definition IpNotAllowed : Error :=
  mkError "Error" "IP address if out of range you permit for".

End Gate.
Export Gate.

(* ===================================================================== *)
(** ** Route generation                                                   *)
(* ===================================================================== *)

Module Routes.

Local Open Scope gate_scope.

(** A value found on the service object, by what the plugin can find
    out about it: whether it is truthy, whether it is a function and
    which, and what a property read on it gives.  [get name] is the
    value of [v[name]] for every name, whether the property is the
    value's own or inherited along its prototype chain: the methods of a
    class instance and the names of [Object.prototype] are in it like
    the own properties.  [EUndefined] is [undefined], the value of a
    property that is not there; the resolver only tests for truthiness,
    so other falsy values have no constructor of their own.  [EObject]
    is a truthy value that is not a function (an object, or a primitive
    read through its wrapper).  Property reads that run code of the user
    (accessors, proxies) are outside this model. *)
Inductive entry : Type :=
| EUndefined
| ECallable (f : callable) (get : string → entry)
| EObject (get : string → entry).

(** The service object: [service[name]] for every name, own or
    inherited. *)
Abbreviation service := (string → entry).

Definition entryTruthy (e : entry) : bool :=
  match e with
  | EUndefined => false
  | _ => true
  end.

(** The function an entry is, when it is one. *)
Definition entryCallable (e : entry) : option callable :=
  match e with
  | ECallable f _ => Some f
  | _ => None
  end.

(** [e[name]] on a truthy entry.  On [undefined] the read throws; the
    resolver reads a property only of an entry it has found truthy, and
    the handler's read is in [runHandler]. *)
Definition entryGet (e : entry) (name : string) : entry :=
  match e with
  | EUndefined => EUndefined
  | ECallable _ get | EObject get => get name
  end.

(** [service[name]]. *)
Definition serviceGet (svc : service) (name : string) : entry := svc name.

(** The three closures [item.handler] can be set to. *)
Inductive Handler : Type :=
| Direct (ServiceRouteName : string)
| Namespaced (lowerClassName ServiceRouteName : string)
| NotImplemented (operationId : string).

(** The closure [item.preValidation] and the variables it captures. *)
Record Hook := {
  hook_ServiceRouteName : string;
  hook_controllerName : string
}.

(** An item as it is handed to [routesInstance.route]. *)
Record Route := {
  item : Item;
  handler : Handler;
  preValidationHook : option Hook
}.

(** [e(request, reply)]. *)
Definition call (e : entry) (what : string) : M unit :=
  match entryCallable e with
  | Some f => emit (ServiceCall f)
  | None => throw (mkError "TypeError" (what +:+ " is not a function"))
  end.

(** Running [item.handler]. *)
Definition runHandler (svc : service) (hd : Handler) : M unit :=
  match hd with
  | Direct ServiceRouteName =>
      call (serviceGet svc ServiceRouteName) "service[ServiceRouteName]"
  | Namespaced lowerClassName ServiceRouteName =>
      match serviceGet svc lowerClassName with
      | EUndefined => throw (TypeError_undefined ServiceRouteName)
      | namespace =>
          call (entryGet namespace ServiceRouteName)
               "service[lowerClassName][ServiceRouteName]"
      end
  | NotImplemented operationId =>
      throw (mkError "Error" ("Operation " +:+ operationId +:+ " not implemented"))
  end.

Section Generation.

Context {E : Engine}.

(** Lines 130-141: the choice of the service callable. *)
Definition resolveService (svc : service) (controllerName className : string)
    (methodName : option string) : result (string * Handler) :=
  let lowerClassName := toLowerCase className in
  if entryTruthy (serviceGet svc controllerName) then
    let ServiceRouteName := controllerName in
    Ok (ServiceRouteName, Direct ServiceRouteName)
  else if entryTruthy (serviceGet svc lowerClassName)
          && entryTruthy (entryGet (serviceGet svc lowerClassName)
                                   (className +:+ interpolate methodName)) then
    let ServiceRouteName := className +:+ interpolate methodName in
    Ok (ServiceRouteName, Namespaced lowerClassName ServiceRouteName)
  else Throw (mkError "Error" "Service not exists").



(** The [try] block of the [forEach] callback: the outcome, and the
    store after it.  [None] is an exhausted recursion budget, which an
    acyclic store never reaches with a budget above its rank. *)
Definition tryItem (fuel : nat) (svc : service) (it : Item) (h : heap)
    : option (result (Handler * Hook) * heap) :=
  match schema it with
  | None => Some (Throw (TypeError_undefined "response"), h)
  | Some sch =>
      let response := response sch in
      let controllerName := operationId it in
      let url := split "/" (url it) in
      let className := url !! 1 in
      let methodName := url !! 2 in
      match className with
      | None => Some (Throw (TypeError_undefined "toLowerCase"), h)
      | Some className =>
          h' ← (if truthy response
                then stripResponseFormats fuel response h
                else Some h);
          match resolveService svc controllerName className methodName with
          | Ok (ServiceRouteName, hd) =>
              Some (Ok (hd, {| hook_ServiceRouteName := ServiceRouteName;
                               hook_controllerName := controllerName |}), h')
          | Throw e => Some (Throw e, h')
          end
      end
  end.

(** The route of an item whose [try] block threw. *)
Definition stubRoute (it : Item) : Route :=
  {| item := it; handler := NotImplemented (operationId it);
     preValidationHook := None |}.

(** The [forEach] callback: the [try] block, the stub on any error, and
    the registration. *)
Definition processItem (fuel : nat) (svc : service) (it : Item) (h : heap)
    : option (Route * heap) :=
  '(outcome, h') ← tryItem fuel svc it h;
  Some (match outcome with
        | Ok (hd, hook) =>
            {| item := it; handler := hd; preValidationHook := Some hook |}
        | Throw _ => stubRoute it
        end, h').

(** [generateRoutes]: the routes handed to [routesInstance.route], in
    order, and the store after the pass. *)
Fixpoint generateRoutes (fuel : nat) (svc : service) (routes : list Item)
    (h : heap) : option (list Route * heap) :=
  match routes with
  | [] => Some ([], h)
  | it :: routes' =>
      '(r, h1) ← processItem fuel svc it h;
      '(rs, h2) ← generateRoutes fuel svc routes' h1;
      Some (r :: rs, h2)
  end.

End Generation.

Section Server.

Context `{External}.
Variable opts : Options.
Variable svc : service.

Definition runHook (it : Item) (hook : Hook) : M unit :=
  preValidation opts it (hook_ServiceRouteName hook) (hook_controllerName hook).

(** The host server's default answer to an error that reaches it. *)
Definition internalError (e : Error) : M unit := send 500 500 (err_message e).

(** The host server after the hook: a hook that has sent the reply ends
    the request; otherwise the schema validator runs, then the handler. *)
Definition afterHook (r : Route) : M unit :=
  λ w, match reply w with
       | Some _ => (Ok tt, w)
       | None =>
           if validates (item r) (request w)
           then (emit HandlerInvoked >> runHandler svc (handler r)) w
           else send 400 400 "Bad Request" w
       end.

(** The host server on one request to a registered route: the
    pre-validation hook when the route has one, then [afterHook]; an
    error that escapes is answered 500. *)
Definition serve (r : Route) : M unit :=
  tryCatch
    (match preValidationHook r with
     | Some hook => runHook (item r) hook
     | None => ret tt
     end >>
     afterHook r)
    internalError.

End Server.

End Routes.
Export Routes.

(* ===================================================================== *)
(** ** Example inputs                                                     *)
(* ===================================================================== *)

Module Examples.

(** An engine for ASCII text: its [toLowerCase] maps the letters [A-Z],
    as [String.prototype.toLowerCase] does on ASCII text, and keeps every
    other byte.  The examples are ASCII text. *)
Definition lowerAscii (c : ascii) : ascii :=
  let n := nat_of_ascii c in
  if (65 <=? n) && (n <=? 90) then ascii_of_nat (n + 32) else c.

Fixpoint asciiLowerCase (s : string) : string :=
  match s with
  | EmptyString => EmptyString
  | String c s' => String (lowerAscii c) (asciiLowerCase s')
  end.

#[export] Instance engine : Engine := {| toLowerCase := asciiLowerCase |}.

(** A payload that allows one range and names an entity id only. *)
Definition payload : Payload :=
  {| IpList := Some ["10.0.0.0/8"%string];
     Role := VArr [VStr "admin"];
     EntityId := VNum 7;
     EntityType := VUndefined |}.

(** A verifier that accepts the token [good], finds [old] expired,
    reports [stale] as expired in other words, and rejects the rest;
    one address lies inside the allowed range. *)
Definition external : External :=
  {| jwt_verify token key :=
       match token with
       | Some "good"%string => Ok payload
       | Some "old"%string => Throw TokenExpiredError
       | Some "stale"%string =>
           Throw (mkError "TokenExpiredError" "token lifetime exceeded")
       | _ => Throw (mkError "JsonWebTokenError" "invalid signature")
       end;
     cidr_contains range address := String.eqb address "10.1.2.3";
     validates _ _ := true |}.

Definition options : Options :=
  {| checkToken := true; publicKey := "-----BEGIN PUBLIC KEY-----"; metrics := None |}.

(** An operation with the given identifier, URL template, auth types,
    request body schema and response schemas. *)
Definition operation (id template : string) (declared : option (list string))
    (requestBody responses : value) : Item :=
  {| operationId := id; url := template; method := "GET";
     schema := Some {| schema_operationId := Some id;
                       body := requestBody; querystring := VUndefined;
                       params := VUndefined; headers := VUndefined;
                       response := responses |};
     openapiSource := {| x_AuthType := declared |} |}.

(** A fresh request with the given headers and peer address. *)
Definition incoming (hs : list (string * string)) (address : string) : World :=
  {| request := {| req_headers := list_to_map hs; req_ip := address;
                   controllerName := None; xAuthTypes := None;
                   Roles := VUndefined; req_EntityId := VUndefined;
                   req_EntityType := VUndefined |};
     reply := None;
     trace := [] |}.

(** [{ "200": pet }] and [pet = { type: "integer", format: "int64" }]:
    the response schema of status 200 is the object at location 2. *)
Definition store : heap :=
  <[1 := [("200", VRef 2)]%string]>
    (<[2 := [("type", VStr "integer"); ("format", VStr "int64")]%string]> ∅).

Definition storeRank (l : loc) : nat :=
  match l with
  | 1 => 2
  | _ => 1
  end.

(** The same store with a request body schema of its own at location 3,
    and the store the pass leaves. *)
Definition storeWithBody : heap :=
  <[3 := [("type", VStr "integer"); ("format", VStr "int32")]%string]> store.

Definition strippedStoreWithBody : heap :=
  <[2 := [("type", VStr "integer"); ("format", VUndefined)]%string]> storeWithBody.

(** The route registered for an operation that the service implements
    under its identifier. *)
Definition registered (it : Item) : Route :=
  {| item := it;
     handler := Direct (operationId it);
     preValidationHook :=
       Some {| hook_ServiceRouteName := operationId it;
               hook_controllerName := operationId it |} |}.

(** A function, by identity.  Its properties ([length], [name], those of
    [Function.prototype]) are left out: the resolver reads properties of
    what it finds under a lower-case key of the service object only, and
    apart from [Object] below the examples hold functions under keys
    with an upper-case letter or one level below the service object. *)
Definition functionEntry (f : callable) : entry := ECallable f (λ _, EUndefined).

(** First binding of a name in a list of properties. *)
Fixpoint member (name : string) (members : list (string * entry)) : option entry :=
  match members with
  | [] => None
  | (k, e) :: members' => if String.eqb k name then Some e else member name members'
  end.

(** The functions [Object.prototype] holds; the function at position [i]
    has the identity [100 + i]. *)
Definition objectPrototypeFunctions : list string :=
  [ "constructor"; "toString"; "toLocaleString"; "valueOf";
    "hasOwnProperty"; "isPrototypeOf"; "propertyIsEnumerable";
    "__defineGetter__"; "__defineSetter__";
    "__lookupGetter__"; "__lookupSetter__" ]%string.

Fixpoint indexOf (name : string) (names : list string) : option nat :=
  match names with
  | [] => None
  | n :: names' => if String.eqb n name then Some 0 else S <$> indexOf name names'
  end.

(** [Object], the [constructor] every object literal inherits.  Of its
    properties only [constructor], which is [Function], is listed: the
    compound key the resolver reads on a namespace starts with the path
    segment whose lower-case form is the namespace's key, and [Object]
    has no other property whose name starts with [constructor] in any
    case. *)
Definition objectConstructor : entry :=
  ECallable 100
    (λ name, if String.eqb name "constructor" then functionEntry 99 else EUndefined).

(** [Object.prototype[name]]; the [__proto__] of [Object.prototype] is
    [null]. *)
Definition objectPrototype (name : string) : entry :=
  if String.eqb name "constructor" then objectConstructor
  else match indexOf name objectPrototypeFunctions with
       | Some i => functionEntry (100 + i)
       | None => EUndefined
       end.

(** An object literal with the given own properties: a name that is not
    its own is read on [Object.prototype], and [__proto__] is
    [Object.prototype] itself. *)
Definition plainObject (own : list (string * entry)) : service :=
  λ name,
    match member name own with
    | Some e => e
    | None =>
        if String.eqb name "__proto__" then EObject objectPrototype
        else objectPrototype name
    end.

(** [{ getWidget: f1, widget: { Widgetget: f2 } }]: a flat entry for
    [getWidget] and a grouped entry under [widget]. *)
Definition registry : service :=
  plainObject
    [ ("getWidget"%string, functionEntry 1);
      ("widget"%string, EObject (plainObject [("Widgetget"%string, functionEntry 2)])) ].

End Examples.
(* ===================================================================== *)
(** ** The plugin entry point                                             *)
(* ===================================================================== *)

Module Plugin.

(** What a loaded module exports, a factory returns, or [opts.service]
    holds once resolved: a non-null object, [null], a function, or some
    other value (a primitive or [undefined]). *)
Inductive provided : Type :=
| PObject (svc : service)
| PNull
| PFunction
| POther.

(** [opts.service] by the [typeof] tests of [getObject]: a string is a
    module path, a function is called (the outcome of the call is kept),
    anything else is taken as it is. *)
Inductive serviceOption : Type :=
| ByPath (path : string)
| ByFactory (returns : result provided)
| ByObject (svc : service)
| ByNull
| ByOther.

(** [isObject] on what [getObject] returns; a function is not an
    object for [typeof]. *)
Definition providedIsObject (p : provided) : bool :=
  match p with
  | PObject _ => true
  | _ => false
  end.

(** The parsed specification: [config.prefix] and [config.routes]. *)
Record ParsedConfig := {
  config_prefix : option string;
  config_routes : list Item
}.

(** What the plugin hands to [instance.register]: [routeConf.prefix]
    and the routes [generateRoutes] registers. *)
Record Registration := {
  reg_prefix : option string;
  reg_routes : list Route
}.

Section Startup.

Context {E : Engine}.

(** The module loader and the specification parser, both outside. *)
Variable Specification : Type.
Variable require : string → result provided.
Variable parse : Specification → result ParsedConfig.

Definition getObject (data : serviceOption) : result provided :=
  match data with
  | ByPath path =>
      match require path with
      | Ok exported => Ok exported
      | Throw _ => Throw (mkError "Error" ("failed to load " +:+ path))
      end
  | ByFactory returns => returns
  | ByObject svc => Ok (PObject svc)
  | ByNull => Ok PNull
  | ByOther => Ok POther
  end.

(** [if (config.prefix) routeConf.prefix = config.prefix]. *)
Definition routeConf (config : ParsedConfig) : option string :=
  match config_prefix config with
  | Some p => if String.eqb p "" then None else Some p
  | None => None
  end.

(** [fastifyOpenapiGlue(instance, opts)], with the registration it
    asks for carried out: the outcome, and the store after it. *)
Definition fastifyOpenapiGlue (fuel : nat) (specification : Specification)
    (serviceOpt : serviceOption) (h : heap)
    : option (result Registration * heap) :=
  match getObject serviceOpt with
  | Throw e => Some (Throw e, h)
  | Ok provided =>
      match parse specification with
      | Throw e => Some (Throw e, h)
      | Ok config =>
          match provided with
          | PObject svc =>
              '(rs, h') ← generateRoutes fuel svc (config_routes config) h;
              Some (Ok {| reg_prefix := routeConf config; reg_routes := rs |}, h')
          | _ =>
              Some (Throw (mkError "Error"
                             "'service' parameter must refer to an object"), h)
          end
      end
  end.

End Startup.

End Plugin.
Export Plugin.

(* ===================================================================== *)
(** ** What a request and a trace show                                    *)
(* ===================================================================== *)

Module Observations.

(** The world with the request's [authorization] header set. *)
Definition withAuthorization (header : string) (w : World) : World :=
  withRequest
    (λ r, {| req_headers := <["authorization"%string := header]> (req_headers r);
             req_ip := req_ip r;
             controllerName := controllerName r; xAuthTypes := xAuthTypes r;
             Roles := Roles r; req_EntityId := req_EntityId r;
             req_EntityType := req_EntityType r |}) w.

(** The three slots [checkJWT] copies from the payload. *)
Definition stampedClaims (r : Request) : value * value * value :=
  (Roles r, req_EntityId r, req_EntityType r).

Definition isMark (ev : event) : bool :=
  match ev with Mark _ => true | _ => false end.

Definition isVerify (ev : event) : bool :=
  match ev with JwtVerify _ => true | _ => false end.

Definition isSend (ev : event) : bool :=
  match ev with Send _ => true | _ => false end.

End Observations.
Export Observations.

(* ===================================================================== *)
(** ** More example inputs                                                *)
(* ===================================================================== *)

Module MoreExamples.

Import Examples.

(** A schema object with an unsupported [format] of its own and one
    nested property schema. *)
Definition schemaStore : heap :=
  <[1 := [("type", VStr "integer"); ("format", VStr "int32");
          ("items", VRef 2)]%string]>
    (<[2 := [("format", VStr "date-time"); ("title", VStr "when")]%string]> ∅).

Definition schemaRank (l : loc) : nat :=
  match l with
  | 1 => 2
  | _ => 1
  end.

(** Counters for the compound name of a grouped route only. *)
Definition groupedCounters : Options :=
  {| checkToken := true; publicKey := "-----BEGIN PUBLIC KEY-----";
     metrics := Some {| counters := {[ "WidgetgetTotal"%string ]};
                        suffix_total := "Total" |} |}.


(** The registry with one more namespace, under a key with an upper-case
    letter. *)
Definition capitalised : service :=
  plainObject
    [ ("getWidget"%string, functionEntry 1);
      ("widget"%string, EObject (plainObject [("Widgetget"%string, functionEntry 2)]));
      ("Widget"%string, EObject (plainObject [("Widgetget"%string, functionEntry 3)])) ].

(** A loader that knows one module, which exports a factory. *)
Definition loader (path : string) : result provided :=
  if String.eqb path "./service.js" then Ok PFunction
  else Throw (mkError "Error" ("Cannot find module '" +:+ path +:+ "'")).

(** A parser that accepts the specification [true] only. *)
Definition parser (specification : bool) : result ParsedConfig :=
  if specification
  then Ok {| config_prefix := Some "v2"%string;
             config_routes := [operation "getWidget" "/widget/get" None VUndefined (VRef 1)] |}
  else Throw (mkError "Error"
                "'specification' parameter must contain a valid version 2.0 or 3.0.x specification").

End MoreExamples.

(* ===================================================================== *)
(** ** The JavaScript fragment on small inputs                            *)
(* ===================================================================== *)

Section JsExamples.

Example split_url :
  split "/" "/v1/widget/{id}" = [""; "v1"; "widget"; "{id}"]%string.
Proof. reflexivity. Qed.

Example split_bearer : split " " "Bearer abc.def.ghi" !! 1 = Some "abc.def.ghi"%string.
Proof. reflexivity. Qed.

Example split_no_space : split " " "Bearer" !! 1 = None.
Proof. reflexivity. Qed.

Example split_adjacent : split " " "a  b" = ["a"; ""; "b"]%string.
Proof. reflexivity. Qed.

Example split_empty : split " " "" = [""%string].
Proof. reflexivity. Qed.

Example asciiLowerCase_segment :
  Examples.asciiLowerCase "Widget-2" = "widget-2"%string.
Proof. reflexivity. Qed.

Example key_of_nested_array :
  toPropertyKey (VArr [VArr [VStr "int32"]]) = "int32"%string.
Proof. reflexivity. Qed.

Example key_of_mixed_array :
  toPropertyKey (VArr [VNull; VNum 3; VRef 1]) = ",3,[object Object]"%string.
Proof. reflexivity. Qed.

Example unknownFormat_int64 : unknownFormat (VStr "int64") = true.
Proof. reflexivity. Qed.

Example unknownFormat_date : unknownFormat (VStr "date-time") = false.
Proof. reflexivity. Qed.

Example unknownFormat_object : unknownFormat (VRef 1) = false.
Proof. reflexivity. Qed.

Example expiredWord_jwt : expiredWord "TokenExpiredError jwt expired for getWidget" = true.
Proof. reflexivity. Qed.

Example expiredWord_name_only : expiredWord "TokenExpiredError for getWidget" = false.
Proof. reflexivity. Qed.

End JsExamples.

(* ===================================================================== *)
(** ** Properties of the normaliser                                       *)
(* ===================================================================== *)

Section StripResponseFormats.

Implicit Types (h : heap) (o : object) (v w c : value) (k : key).

Lemma lookupProp_setProp name x o :
  lookupProp name (setProp name x o) = Some x.
Proof.
  induction o as [|[k v] o IH]; simpl.
  - by rewrite String.eqb_refl.
  - destruct (String.eqb k name) eqn:E; simpl; rewrite E; auto.
Qed.

Lemma objCleared_refl o : objCleared o o.
Proof. apply Forall2_same_length_lookup_2; [done|]. intros i x y ??; left; congruence. Qed.

Lemma objCleared_trans o1 o2 o3 :
  objCleared o1 o2 → objCleared o2 o3 → objCleared o1 o3.
Proof.
  intros H12; revert o3.
  induction H12 as [|kv1 kv2 o1 o2 Hkv _ IH]; intros o3 H23.
  - inversion H23; constructor.
  - inversion H23 as [|? kv3 ? o3' Hkv' Hrest]; subst.
    constructor; [|by apply IH].
    destruct Hkv as [->|(Hk & Hu & ->)]; [done|].
    destruct Hkv' as [->|(_ & _ & ->)]; right; done.
Qed.

Lemma objCleared_setProp o x :
  lookupProp "format" o = Some x → unknownFormat x = true →
  objCleared o (setProp "format" VUndefined o).
Proof.
  induction o as [|[k v] o IH]; simpl; [done|].
  destruct (String.eqb k "format") eqn:E; intros Hx Hu.
  - apply String.eqb_eq in E as ->. injection Hx as ->.
    constructor; [right; done | apply objCleared_refl].
  - constructor; [left; done | by apply IH].
Qed.

Lemma objCleared_keys o o' : objCleared o o' → o'.*1 = o.*1.
Proof.
  induction 1 as [|kv kv' o o' Hkv _ IH]; [done|].
  simpl; f_equal; [|done].
  by destruct Hkv as [->|(-> & _ & ->)].
Qed.

Lemma objCleared_lookup o o' name :
  objCleared o o' →
  lookupProp name o' = lookupProp name o
  ∨ (name = "format"%string ∧ lookupProp name o' = Some VUndefined
     ∧ ∃ x, lookupProp name o = Some x ∧ unknownFormat x = true).
Proof.
  induction 1 as [|[k v] [k' v'] o o' Hkv _ IH]; [by left|].
  simpl. destruct Hkv as [[= -> ->]|(Hk & Hu & [= -> ->])].
  - destruct (String.eqb k name); [by left | done].
  - simpl in Hk, Hu; subst k.
    destruct (String.eqb "format" name) eqn:E; [|done].
    apply String.eqb_eq in E as <-. right. eauto.
Qed.

Lemma heapCleared_refl h : heapCleared h h.
Proof.
  intros l. destruct (h !! l); constructor. apply objCleared_refl.
Qed.

Lemma heapCleared_trans h1 h2 h3 :
  heapCleared h1 h2 → heapCleared h2 h3 → heapCleared h1 h3.
Proof.
  intros H12 H23 l. specialize (H12 l). specialize (H23 l).
  destruct H12; inversion H23; subst; constructor.
  eauto using objCleared_trans.
Qed.

Lemma heapCleared_keys h h' v :
  heapCleared h h' → forInKeys h' v = forInKeys h v.
Proof.
  intros Hc. destruct v as [| | | | |?|l]; try done. simpl.
  specialize (Hc l). destruct Hc as [o o' Hoo'|]; [|done].
  by rewrite (objCleared_keys _ _ Hoo').
Qed.

Lemma heapCleared_getProp h h' v k :
  heapCleared h h' →
  getProp h' v k = getProp h v k
  ∨ (k = KName "format" ∧ getProp h' v k = VUndefined
     ∧ unknownFormat (getProp h v k) = true).
Proof.
  intros Hc. destruct v as [| | | | |?|l]; try by left.
  destruct k as [name|i]; [|by left]. simpl.
  specialize (Hc l). destruct Hc as [o o' Hoo'|]; [|by left].
  destruct (objCleared_lookup _ _ name Hoo') as [->|(-> & -> & x & -> & Hu)];
    [by left|by right].
Qed.

Lemma isObject_not_undefined v : isObject v = true → v ≠ VUndefined.
Proof. by destruct v. Qed.

Lemma heapCleared_childOf h h' v w :
  heapCleared h h' → childOf h' v w → childOf h v w.
Proof.
  intros Hc (k & Hk & Hget & Hobj). exists k.
  rewrite (heapCleared_keys _ _ _ Hc) in Hk.
  destruct (heapCleared_getProp _ _ v k Hc) as [Heq|(_ & Hu & _)].
  - by rewrite <- Heq.
  - rewrite Hu in Hget; subst w; done.
Qed.

Lemma heapCleared_nested h h' v w :
  heapCleared h h' → nested h' v w → nested h v w.
Proof.
  intros Hc. induction 1.
  - apply nested_child. eauto using heapCleared_childOf.
  - eapply nested_step; eauto using heapCleared_childOf.
Qed.

Lemma unknownFormat_undefined : unknownFormat VUndefined = false.
Proof. reflexivity. Qed.

Lemma unknownFormat_unsupported format :
  unsupportedFormat format → unknownFormat format = true.
Proof. by intros [->| ->]. Qed.

Lemma heapCleared_unknownFormat h h' v :
  heapCleared h h' →
  unknownFormat (getProp h v (KName "format")) = false →
  unknownFormat (getProp h' v (KName "format")) = false.
Proof.
  intros Hc Hf.
  by destruct (heapCleared_getProp _ _ v (KName "format") Hc) as [->|(_ & -> & _)].
Qed.

Lemma clearFormat_cleared h c : heapCleared h (clearFormat h c).
Proof.
  unfold clearFormat.
  destruct (unknownFormat _) eqn:E; [|apply heapCleared_refl].
  destruct c as [| | | | |?|l]; try apply heapCleared_refl. simpl in *.
  destruct (h !! l) as [o|] eqn:Hl; [|apply heapCleared_refl].
  intros l'. destruct (decide (l' = l)) as [->|Hne].
  - rewrite lookup_insert_eq, Hl. constructor.
    destruct (lookupProp "format" o) as [x|] eqn:Hx; [|done].
    eauto using objCleared_setProp.
  - rewrite lookup_insert_ne by done. apply heapCleared_refl.
Qed.

Lemma clearFormat_format h c :
  unknownFormat (getProp (clearFormat h c) c (KName "format")) = false.
Proof.
  unfold clearFormat.
  destruct (unknownFormat (getProp h c _)) eqn:E; [|done].
  destruct c as [| | | | |?|l]; try done. simpl in *.
  destruct (h !! l) as [o|] eqn:Hl; [|by rewrite Hl in *].
  by rewrite lookup_insert_eq, lookupProp_setProp.
Qed.

Lemma clearFormat_other h c l :
  c ≠ VRef l → clearFormat h c !! l = h !! l.
Proof.
  intros Hne. unfold clearFormat.
  destruct (unknownFormat _); [|done].
  destruct c as [| | | | |?|l']; try done. simpl.
  destruct (h !! l') eqn:Hl'; [|done].
  apply lookup_insert_ne. congruence.
Qed.

(** One unfolding of the recursion, with the guarded assignment named. *)
Lemma stripResponseFormats_S fuel schema h :
  stripResponseFormats (S fuel) schema h =
  forIn (λ item h1,
           let child := getProp h1 schema item in
           if isObject child
           then stripResponseFormats fuel child (clearFormat h1 child)
           else Some h1)
        (forInKeys h schema) h.
Proof. reflexivity. Qed.

(** The pass only clears [format] bindings. *)
Lemma stripResponseFormats_cleared fuel :
  ∀ schema h h',
    stripResponseFormats fuel schema h = Some h' → heapCleared h h'.
Proof.
  induction fuel as [|fuel IH]; intros schema h h'; [done|].
  rewrite stripResponseFormats_S.
  generalize (forInKeys h schema) as keys. intros keys; revert h.
  induction keys as [|item keys IHkeys]; intros h; simpl.
  - intros [= <-]. apply heapCleared_refl.
  - destruct (isObject (getProp h schema item)).
    + destruct (stripResponseFormats fuel _ _) as [h2|] eqn:E; [|done].
      intros Hrest. apply IH in E. apply IHkeys in Hrest.
      eauto using heapCleared_trans, clearFormat_cleared.
    + apply IHkeys.
Qed.

(** After the pass, no object nested under [schema] holds a [format]
    that the guard of the loop would still clear. *)
Lemma stripResponseFormats_nested fuel :
  ∀ schema h h',
    stripResponseFormats fuel schema h = Some h' →
    ∀ w, nested h' schema w →
         unknownFormat (getProp h' w (KName "format")) = false.
Proof.
  induction fuel as [|fuel IH]; intros schema h h' Hrun; [done|].
  assert (Hloop : ∀ keys h1,
    forIn (λ item h1,
             let child := getProp h1 schema item in
             if isObject child
             then stripResponseFormats fuel child (clearFormat h1 child)
             else Some h1) keys h1 = Some h' →
    heapCleared h1 h' ∧
    ∀ k c, k ∈ keys → getProp h' schema k = c → isObject c = true →
      unknownFormat (getProp h' c (KName "format")) = false
      ∧ ∀ w, nested h' c w →
             unknownFormat (getProp h' w (KName "format")) = false).
  { induction keys as [|item keys IHkeys]; intros h1; simpl.
    - intros [= <-]. split; [apply heapCleared_refl|].
      intros k c Hk. by apply elem_of_nil in Hk.
    - destruct (isObject (getProp h1 schema item)) eqn:Hobj.
      + destruct (stripResponseFormats fuel _ _) as [h2|] eqn:E; [|done].
        intros Hrest. destruct (IHkeys _ Hrest) as [H2 Hkeys].
        pose proof (stripResponseFormats_cleared _ _ _ _ E) as Hc2.
        pose proof (clearFormat_cleared h1 (getProp h1 schema item)) as Hc1.
        assert (H1 : heapCleared h1 h') by eauto using heapCleared_trans.
        split; [done|].
        intros k c [->|Hk]%elem_of_cons Hget Hc; [|eauto].
        destruct (heapCleared_getProp _ _ schema item H1) as [Heq|(_ & Hu & _)];
          [|rewrite Hu in Hget; subst c; done].
        rewrite Heq in Hget. subst c. split.
        * eapply heapCleared_unknownFormat;
            [exact (heapCleared_trans _ _ _ Hc2 H2)|].
          apply clearFormat_format.
        * intros w Hw. eapply heapCleared_unknownFormat; [exact H2|].
          eapply IH; [exact E|]. eauto using heapCleared_nested.
      + intros Hrest. destruct (IHkeys _ Hrest) as [H1 Hkeys].
        split; [done|].
        intros k c [->|Hk]%elem_of_cons Hget Hc; [|eauto].
        destruct (heapCleared_getProp _ _ schema item H1) as [Heq|(_ & Hu & _)];
          [|rewrite Hu in Hget; subst c; done].
        congruence. }
  rewrite stripResponseFormats_S in Hrun.
  destruct (Hloop _ _ Hrun) as [Hc Hkeys].
  intros w Hw. inversion Hw as [? ? (k & Hk & Hget & Hobj)|? c ? (k & Hk & Hget & Hobj) Hcw];
    subst; rewrite (heapCleared_keys _ _ _ Hc) in Hk.
  - by destruct (Hkeys k _ Hk eq_refl Hobj).
  - destruct (Hkeys k _ Hk eq_refl Hobj) as [_ Hdeep]. by apply Hdeep.
Qed.

(** Objects that are not nested under [schema] are not written to. *)
Lemma stripResponseFormats_frame fuel :
  ∀ schema h h',
    stripResponseFormats fuel schema h = Some h' →
    ∀ l, ¬ nested h schema (VRef l) → h' !! l = h !! l.
Proof.
  induction fuel as [|fuel IH]; intros schema h h' Hrun l Hl; [done|].
  assert (Hloop : ∀ keys h1,
    heapCleared h h1 → keys ⊆ forInKeys h schema →
    forIn (λ item h1,
             let child := getProp h1 schema item in
             if isObject child
             then stripResponseFormats fuel child (clearFormat h1 child)
             else Some h1) keys h1 = Some h' →
    h' !! l = h1 !! l).
  { induction keys as [|item keys IHkeys]; intros h1 Hc Hsub; simpl.
    - by intros [= <-].
    - assert (Hitem : item ∈ forInKeys h schema) by (apply Hsub; left).
      assert (Hsub' : keys ⊆ forInKeys h schema).
      { intros k Hk. apply Hsub. by right. }
      destruct (isObject (getProp h1 schema item)) eqn:Hobj; [|eauto].
      destruct (stripResponseFormats fuel _ _) as [h2|] eqn:E; [|done].
      intros Hrest.
      set (child := getProp h1 schema item) in *.
      assert (Hchild : childOf h schema child).
      { eapply heapCleared_childOf; [exact Hc|].
        exists item. by rewrite (heapCleared_keys _ _ _ Hc). }
      pose proof (clearFormat_cleared h1 child) as Hc1.
      pose proof (stripResponseFormats_cleared _ _ _ _ E) as Hc2.
      rewrite (IHkeys h2); [|eauto using heapCleared_trans|done|done].
      rewrite (IH _ _ _ E).
      + apply clearFormat_other. intros ->. apply Hl. by apply nested_child.
      + intros Hn. apply Hl. eapply nested_step; [exact Hchild|].
        eapply heapCleared_nested; [|exact Hn].
        eauto using heapCleared_trans. }
  rewrite stripResponseFormats_S in Hrun.
  eapply Hloop; [apply heapCleared_refl|done|exact Hrun].
Qed.

(** A larger budget gives the same store. *)
Lemma stripResponseFormats_fuel_S fuel :
  ∀ schema h h',
    stripResponseFormats fuel schema h = Some h' →
    stripResponseFormats (S fuel) schema h = Some h'.
Proof.
  induction fuel as [|fuel IH]; intros schema h h'; [done|].
  rewrite (stripResponseFormats_S (S fuel)), stripResponseFormats_S.
  generalize (forInKeys h schema) as keys. intros keys; revert h.
  induction keys as [|item keys IHkeys]; intros h; cbn [forIn]; [done|].
  cbv zeta. destruct (isObject (getProp h schema item)); [|apply IHkeys].
  destruct (stripResponseFormats fuel _ _) as [h2|] eqn:E; [|done].
  rewrite (IH _ _ _ E). apply IHkeys.
Qed.

Lemma stripResponseFormats_fuel_mono fuel fuel' schema h h' :
  fuel ≤ fuel' →
  stripResponseFormats fuel schema h = Some h' →
  stripResponseFormats fuel' schema h = Some h'.
Proof.
  induction 1 as [|fuel' _ IH]; [done|].
  intros Hrun. by apply stripResponseFormats_fuel_S, IH.
Qed.

(** *** Termination on acyclic stores *)

Lemma vrank_elem rank (elems : list value) i c :
  elems !! i = Some c → vrank rank c < vrank rank (VArr elems).
Proof.
  simpl. revert i. induction elems as [|w elems IH]; intros [|i]; simpl; try done.
  - intros [= ->]. lia.
  - intros Hi. specialize (IH _ Hi). lia.
Qed.

Lemma lookupProp_elem name o x :
  lookupProp name o = Some x → ∃ name' : string, (name', x) ∈ o.
Proof.
  induction o as [|[name0 v] o IH]; simpl; [done|].
  destruct (String.eqb name0 name).
  - intros [= ->]. exists name0. left.
  - intros [name' Hin]%IH. exists name'. by right.
Qed.

Lemma acyclic_getProp rank h v k :
  acyclic rank h → isObject (getProp h v k) = true →
  vrank rank (getProp h v k) < vrank rank v.
Proof.
  intros Hacyc. destruct v as [| | | |s|elems|l], k as [name|i]; simpl; try done.
  - by destruct (chars s !! i).
  - by destruct (String.eqb name "length").
  - destruct (elems !! i) as [c|] eqn:Hi; [|done]. intros _.
    by apply (vrank_elem rank) in Hi.
  - destruct (h !! l) as [o|] eqn:Hl; [|done].
    destruct (lookupProp name o) as [x|] eqn:Hx; [|done]. simpl. intros _.
    apply lookupProp_elem in Hx as [k' Hk'].
    specialize (Hacyc _ _ Hl). simpl in Hacyc.
    rewrite Forall_forall in Hacyc. exact (Hacyc _ Hk').
Qed.

Lemma acyclic_cleared rank h h' :
  heapCleared h h' → acyclic rank h → acyclic rank h'.
Proof.
  intros Hc Hacyc l o' Hl'. specialize (Hc l). rewrite Hl' in Hc.
  inversion Hc as [o ? Hoo' Hl|]; subst. symmetry in Hl.
  specialize (Hacyc _ _ Hl). simpl in Hacyc.
  clear Hc Hl Hl'. induction Hoo' as [|kv kv' o o' Hkv _ IH]; [done|].
  inversion Hacyc as [|?? Hhd Htl]; subst.
  constructor; [|by apply IH].
  destruct Hkv as [->|(_ & _ & ->)]; [done|]. simpl. lia.
Qed.

(** On an acyclic store, a budget above the rank of [schema] suffices. *)
Lemma stripResponseFormats_total rank fuel :
  ∀ schema h,
    acyclic rank h → vrank rank schema < fuel →
    ∃ h', stripResponseFormats fuel schema h = Some h'.
Proof.
  induction fuel as [|fuel IH]; intros schema h Hacyc Hrank; [lia|].
  rewrite stripResponseFormats_S.
  generalize (forInKeys h schema) as keys. intros keys; revert h Hacyc.
  induction keys as [|item keys IHkeys]; intros h Hacyc; simpl; [eauto|].
  destruct (isObject (getProp h schema item)) eqn:Hobj; [|eauto].
  pose proof (acyclic_getProp rank h schema item Hacyc Hobj) as Hlt.
  pose proof (clearFormat_cleared h (getProp h schema item)) as Hc1.
  destruct (IH (getProp h schema item) (clearFormat h (getProp h schema item)))
    as [h2 E]; [eauto using acyclic_cleared|lia|].
  rewrite E. apply IHkeys.
  eauto using acyclic_cleared, stripResponseFormats_cleared.
Qed.

End StripResponseFormats.

(** *** The pass keeps every object in the tree *)

Section NestedReferences.

Implicit Types (h : heap) (o : object) (v w c : value) (k : key).

Lemma hasBracket_app s1 s2 :
  hasBracket (s1 +:+ s2) = hasBracket s1 || hasBracket s2.
Proof. induction s1 as [|a s1 IH]; simpl; [done|]. by rewrite IH, orb_assoc. Qed.

Lemma hasBracket_join (parts : list string) :
  hasBracket (join "," parts) = existsb hasBracket parts.
Proof.
  induction parts as [|p parts IH]; [done|].
  destruct parts as [|q parts]; [simpl; by rewrite orb_false_r|].
  change (join "," (p :: q :: parts)) with (p +:+ "," +:+ join "," (q :: parts)).
  rewrite !hasBracket_app, IH. reflexivity.
Qed.

(** No key of [unknownFormats] has a bracket. *)
Lemma unknownFormats_hasBracket key :
  unknownFormats key = true → hasBracket key = false.
Proof.
  unfold unknownFormats, includes, objectPrototypeNames.
  rewrite orb_true_iff, !existsb_exists.
  intros [(x & Hx & ->%String.eqb_eq)|(x & Hx & ->%String.eqb_eq)];
    simpl in Hx; intuition (subst; reflexivity).
Qed.

(** A value that holds a reference prints with a bracket. *)
Lemma holdsRef_hasBracket : ∀ v, holdsRef v = true → hasBracket (toPropertyKey v) = true.
Proof.
  fix IH 1. intros [| | | | |elems|l]; try done. simpl.
  rewrite hasBracket_join.
  induction elems as [|w elems IHelems]; [done|].
  intros [Hw|Hrest]%orb_true_iff.
  - pose proof (IH w Hw) as Hb.
    destruct w; try done; cbn [existsb]; by rewrite Hb.
  - specialize (IHelems Hrest).
    destruct w; cbn [existsb]; rewrite IHelems; by rewrite ?orb_true_r.
Qed.

(** A [format] that the guard accepts holds no reference. *)
Lemma unknownFormat_holdsRef v : unknownFormat v = true → holdsRef v = false.
Proof.
  unfold unknownFormat. intros [_ Hkey%unknownFormats_hasBracket]%andb_true_iff.
  destruct (holdsRef v) eqn:Hv; [|done].
  apply holdsRef_hasBracket in Hv. congruence.
Qed.

Lemma holdsRef_elem (elems : list value) i c :
  elems !! i = Some c → holdsRef c = true → holdsRef (VArr elems) = true.
Proof.
  simpl. revert i. induction elems as [|w elems IH]; intros [|i]; simpl; try done.
  - by intros [= ->] ->.
  - intros Hi Hc. rewrite (IH _ Hi Hc). apply orb_true_r.
Qed.

(** Whatever is nested under an array was reached through its elements. *)
Lemma nested_array_holdsRef h v w :
  nested h v w →
  ∀ elems l, v = VArr elems → w = VRef l → holdsRef v = true.
Proof.
  induction 1 as [v w (k & Hk & Hget & Hobj)|v c w (k & Hk & Hget & Hobj) _ IH];
    intros elems l -> ->.
  - destruct k as [name|i]; simpl in Hget;
      [by destruct (String.eqb name "length")|].
    destruct (elems !! i) as [c|] eqn:Hi; [|done]. simpl in Hget. subst c.
    by eapply holdsRef_elem.
  - destruct k as [name|i]; simpl in Hget;
      [destruct (String.eqb name "length"); by subst c|].
    destruct (elems !! i) as [c'|] eqn:Hi; [|by subst c]. simpl in Hget. subst c'.
    eapply holdsRef_elem; [exact Hi|].
    destruct c; try done. by eapply IH.
Qed.

(** A child that is a reference, or that leads to one, stays a child. *)
Lemma heapCleared_childOf_kept h h' v c :
  heapCleared h h' → childOf h v c → holdsRef c = true → childOf h' v c.
Proof.
  intros Hc (k & Hk & Hget & Hobj) Href. exists k.
  rewrite (heapCleared_keys _ _ _ Hc).
  destruct (heapCleared_getProp _ _ v k Hc) as [Heq|(_ & _ & Hu)].
  - by rewrite Heq.
  - rewrite Hget in Hu. apply unknownFormat_holdsRef in Hu. congruence.
Qed.

Lemma heapCleared_nested_kept h h' v l :
  heapCleared h h' → nested h v (VRef l) → nested h' v (VRef l).
Proof.
  intros Hc Hn. remember (VRef l) as w eqn:Hw.
  induction Hn as [v w Hchild|v c w Hchild Hn IH]; subst w.
  - apply nested_child. by eapply heapCleared_childOf_kept.
  - eapply nested_step; [|by apply IH].
    eapply heapCleared_childOf_kept; [done|done|].
    destruct Hchild as (k & _ & _ & Hobj).
    destruct c; try done. by eapply nested_array_holdsRef.
Qed.

(** Every object that was nested under [schema] with a [format] the
    guard accepts has lost that [format]. *)
Lemma stripResponseFormats_clears fuel schema h h' l :
  stripResponseFormats fuel schema h = Some h' →
  nested h schema (VRef l) →
  unknownFormat (getProp h (VRef l) (KName "format")) = true →
  getProp h' (VRef l) (KName "format") = VUndefined.
Proof.
  intros Hrun Hn Hbad.
  pose proof (stripResponseFormats_cleared _ _ _ _ Hrun) as Hc.
  pose proof (stripResponseFormats_nested _ _ _ _ Hrun (VRef l)
                (heapCleared_nested_kept _ _ _ _ Hc Hn)) as Hgood.
  destruct (heapCleared_getProp _ _ (VRef l) (KName "format") Hc)
    as [Heq|(_ & Hu & _)]; [|done].
  rewrite Heq in Hgood. congruence.
Qed.

End NestedReferences.

(* ===================================================================== *)
(** ** Properties of the hook                                             *)
(* ===================================================================== *)

Section GateFacts.

Context `{External}.
Variable opts : Options.

Implicit Types (w : World) (it : Item) (e : Error).

Lemma catchAccessError_denied e w :
  catchAccessError e w = (Ok tt, denied (err_message e) w).
Proof.
  unfold catchAccessError, denied, denial, expiredWord.
  by destruct (includes _ _).
Qed.

Lemma preValidation_entered it srn ctrl w :
  metricsSafe opts srn ctrl = true →
  preValidation opts it srn ctrl w =
  tryCatch (if checkToken opts then checkAccess opts it else ret tt)
           catchAccessError (entered opts srn ctrl w).
Proof.
  unfold metricsSafe, preValidation, markMetrics, entered, bind, tryCatch.
  destruct (metrics opts) as [m|]; simpl.
  - destruct (bool_decide (srn +:+ _ ∈ _)); simpl.
    + intros ->. reflexivity.
    + intros _. by rewrite app_nil_r.
  - intros _. by rewrite app_nil_r.
Qed.

(** The three ways through [checkAccess]. *)
Lemma checkAccess_open it w :
  gateCondition opts it = true →
  ∃ sch declared,
    schema it = Some sch ∧ x_AuthType (openapiSource it) = Some declared ∧
    (if checkToken opts then checkAccess opts it else ret tt) w =
    checkJWT opts (schema_operationId sch) (withRequest (withAuthTypes declared) w).
Proof.
  unfold gateCondition, checkAccess.
  destruct (checkToken opts); [|done].
  destruct (schema it) as [sch|]; [|done].
  destruct (x_AuthType (openapiSource it)) as [declared|]; [|done].
  simpl. intros ->. by exists sch, declared.
Qed.

Lemma checkAccess_closed it w :
  gateCondition opts it = false →
  (checkToken opts = true → is_Some (schema it) →
   is_Some (x_AuthType (openapiSource it))) →
  (if checkToken opts then checkAccess opts it else ret tt) w = (Ok tt, w).
Proof.
  unfold gateCondition, checkAccess.
  destruct (checkToken opts); [|done].
  destruct (schema it) as [sch|]; [|done].
  destruct (x_AuthType (openapiSource it)) as [declared|].
  - simpl. by intros ->.
  - intros _ Hdecl. by destruct Hdecl as [? ?].
Qed.

Lemma checkAccess_undeclared it sch w :
  checkToken opts = true → schema it = Some sch →
  x_AuthType (openapiSource it) = None →
  (if checkToken opts then checkAccess opts it else ret tt) w =
  (Throw (TypeError_undefined "length"), w).
Proof. unfold checkAccess. by intros -> -> ->. Qed.

(** The four ways through [checkJWT]. *)
Lemma checkJWT_no_header entity w :
  req_headers (request w) !! "authorization"%string = None →
  checkJWT opts entity w = (Throw (TypeError_undefined "split"), w).
Proof. unfold checkJWT, bind, getRequest. by intros ->. Qed.

Lemma checkJWT_verify_fails entity w header e :
  req_headers (request w) !! "authorization"%string = Some header →
  jwt_verify (split " " header !! 1) (publicKey opts) = Throw e →
  checkJWT opts entity w =
  (Throw (mkError "Error" (rethrown e entity)),
   withEvent (JwtVerify (split " " header !! 1)) w).
Proof.
  unfold checkJWT, bind, getRequest, tryCatch, verify, bind, emit.
  intros -> Hv. simpl. by rewrite Hv.
Qed.

Lemma checkJWT_ip_refused entity w header payload ipList :
  req_headers (request w) !! "authorization"%string = Some header →
  jwt_verify (split " " header !! 1) (publicKey opts) = Ok payload →
  IpList payload = Some ipList → ipList ≠ [] →
  existsb (λ ipRange, cidr_contains ipRange (req_ip (request w))) ipList = false →
  checkJWT opts entity w =
  (Throw (mkError "Error" (rethrown IpNotAllowed entity)),
   withEvent (JwtVerify (split " " header !! 1)) w).
Proof.
  unfold checkJWT, bind, getRequest, tryCatch, verify, bind, emit.
  intros -> Hv Hip Hne Hout. simpl. rewrite Hv. simpl. rewrite Hip.
  destruct ipList as [|r rs]; [done|]. simpl length. cbv beta iota.
  simpl negb. cbv iota. rewrite Hout. reflexivity.
Qed.

Lemma checkJWT_allowed entity w header payload :
  req_headers (request w) !! "authorization"%string = Some header →
  jwt_verify (split " " header !! 1) (publicKey opts) = Ok payload →
  (∀ ipList, IpList payload = Some ipList → ipList ≠ [] →
     existsb (λ ipRange, cidr_contains ipRange (req_ip (request w))) ipList = true) →
  checkJWT opts entity w =
  (Ok tt,
   withRequest (withClaims payload)
     (withEvent (JwtVerify (split " " header !! 1)) w)).
Proof.
  unfold checkJWT, bind, getRequest, tryCatch, verify, bind, emit.
  intros -> Hv Hin. simpl. rewrite Hv. simpl.
  destruct (IpList payload) as [[|r rs]|] eqn:Hip; try reflexivity.
  specialize (Hin _ eq_refl). simpl length. cbv beta iota. simpl negb. cbv iota.
  rewrite Hin by done. reflexivity.
Qed.

End GateFacts.

(* ===================================================================== *)
(** ** Strings                                                            *)
(* ===================================================================== *)

Section Strings.

Lemma split_nonempty sep s : split sep s ≠ [].
Proof.
  destruct s as [|c s]; simpl; [done|].
  destruct (Ascii.eqb c sep); [done|]. by destruct (split sep s).
Qed.

(** Splitting at the separator that joins two strings. *)
Lemma split_app sep s1 s2 :
  split sep (s1 +:+ String sep s2) = split sep s1 ++ split sep s2.
Proof.
  induction s1 as [|c s1 IH]; simpl.
  - by rewrite Ascii.eqb_refl.
  - destruct (Ascii.eqb c sep); [by rewrite IH|].
    rewrite IH. pose proof (split_nonempty sep s1).
    by destruct (split sep s1).
Qed.

Lemma includes_app word (xs ys : list string) :
  includes word (xs ++ ys) = includes word xs || includes word ys.
Proof. apply existsb_app. Qed.

(** The word test on a rethrown message looks at the words of the
    error's name, of its message and of the entity. *)
Lemma expiredWord_rethrown e entity :
  expiredWord (rethrown e entity) =
  expiredWord (err_name e) || expiredWord (err_message e)
  || expiredWord (interpolate entity).
Proof.
  unfold expiredWord, rethrown.
  change (err_name e +:+ " " +:+ err_message e +:+ " for " +:+ interpolate entity)
    with (err_name e +:+ String " " (err_message e +:+ String " " ("for" +:+ String " " (interpolate entity)))).
  rewrite !split_app, !includes_app. simpl (includes "expired" (split " " "for")).
  by rewrite orb_false_l, orb_assoc.
Qed.

End Strings.

(* ===================================================================== *)
(** ** Outcomes of the hook and of a request                              *)
(* ===================================================================== *)

Section HookOutcome.

Context `{External}.
Variable opts : Options.

Implicit Types (w : World) (it : Item) (e : Error).

Local Ltac step_gate :=
  repeat match goal with
         | |- context [match ?x with _ => _ end] => destruct x eqn:?; simpl
         | H : (_, _) = (_, _) |- _ => injection H as <- <-
         | H : context [match ?x with _ => _ end] |- _ => destruct x eqn:?; simpl in H
         end.

(** The guarded [checkAccess] sends no reply and invokes no handler. *)
Lemma checkAccess_quiet it w res w' :
  (if checkToken opts then checkAccess opts it else ret tt) w = (res, w') →
  reply w' = reply w ∧ (handlerInvoked w' → handlerInvoked w).
Proof.
  unfold checkAccess, checkJWT, bind, getRequest, tryCatch, verify, bind,
    emit, setRequest, openapiFailures, throw, ret, handlerInvoked.
  intros Hrun. simpl in Hrun. step_gate; simpl; (split; [done|]);
    rewrite ?elem_of_app, ?elem_of_cons, ?elem_of_nil; intuition discriminate.
Qed.

(** [checkJWT] leaves the stamped auth types alone. *)
Lemma checkJWT_xAuthTypes entity w res w' :
  checkJWT opts entity w = (res, w') →
  xAuthTypes (request w') = xAuthTypes (request w).
Proof.
  unfold checkJWT, bind, getRequest, tryCatch, verify, bind,
    emit, setRequest, openapiFailures, throw, ret.
  intros Hrun. simpl in Hrun. by step_gate.
Qed.

Lemma entered_quiet srn ctrl w :
  reply (entered opts srn ctrl w) = reply w
  ∧ (handlerInvoked (entered opts srn ctrl w) → handlerInvoked w).
Proof.
  split; [done|]. unfold handlerInvoked, entered; simpl.
  destruct (metrics opts) as [m|]; [destruct (bool_decide _)|];
    rewrite ?elem_of_app, ?elem_of_cons, ?elem_of_nil; intuition discriminate.
Qed.

(** The hook never throws past its counter step; it ends either without
    a word or with the reply of its [catch]. *)
Lemma preValidation_outcome it srn ctrl w :
  metricsSafe opts srn ctrl = true →
  ∃ w1, reply w1 = reply w ∧ (handlerInvoked w1 → handlerInvoked w) ∧
    (preValidation opts it srn ctrl w = (Ok tt, w1)
     ∨ ∃ message, preValidation opts it srn ctrl w = (Ok tt, denied message w1)).
Proof.
  intros Hsafe. rewrite (preValidation_entered _ _ _ _ _ Hsafe). unfold tryCatch.
  destruct (entered_quiet srn ctrl w) as [Hr Hh].
  destruct ((if checkToken opts then checkAccess opts it else ret tt)
              (entered opts srn ctrl w)) as [[[]|e] w1] eqn:Hrun;
    destruct (checkAccess_quiet _ _ _ _ Hrun) as [Hr1 Hh1];
    exists w1; (split; [congruence|]); (split; [tauto|]).
  - by left.
  - right. exists (err_message e). apply catchAccessError_denied.
Qed.

Lemma denied_reply message w :
  reply w = None → reply (denied message w) = Some (denial message).
Proof. unfold denied; simpl. by intros ->. Qed.

Lemma denied_handlerInvoked message w :
  handlerInvoked (denied message w) → handlerInvoked w.
Proof.
  unfold handlerInvoked, denied; simpl.
  rewrite elem_of_app, elem_of_cons, elem_of_nil. intuition discriminate.
Qed.

(** The two shapes of a denial. *)
Lemma denial_cases message :
  (expiredWord message = true
   ∧ denial message = {| code := 440; Status := 440; Description := message |})
  ∨ (expiredWord message = false
     ∧ denial message = {| code := 401; Status := 401; Description := message |}).
Proof. unfold denial. destruct (expiredWord message); [by left|by right]. Qed.

Lemma denial_Description message : Description (denial message) = message.
Proof. unfold denial. by destruct (expiredWord message). Qed.

(** A hook that has replied ends the request. *)
Lemma serve_replied (svc : service) (r : Route) hook w w' :
  preValidationHook r = Some hook →
  runHook opts (item r) hook w = (Ok tt, w') →
  is_Some (reply w') →
  serve opts svc r w = (Ok tt, w').
Proof.
  unfold serve, afterHook, tryCatch, bind. intros -> -> [rp Hrp]. by rewrite Hrp.
Qed.

(** A failed verification, seen from the hook. *)
Lemma preValidation_verify_fails it sch declared srn ctrl w header e :
  metricsSafe opts srn ctrl = true →
  gateCondition opts it = true →
  schema it = Some sch →
  x_AuthType (openapiSource it) = Some declared →
  req_headers (request w) !! "authorization"%string = Some header →
  jwt_verify (split " " header !! 1) (publicKey opts) = Throw e →
  preValidation opts it srn ctrl w =
  (Ok tt,
   denied (rethrown e (schema_operationId sch))
     (withEvent (JwtVerify (split " " header !! 1))
        (withRequest (withAuthTypes declared) (entered opts srn ctrl w)))).
Proof.
  intros Hsafe Hgate Hsch Hdecl Hhdr Hv.
  rewrite (preValidation_entered _ _ _ _ _ Hsafe). unfold tryCatch.
  destruct (checkAccess_open opts it (entered opts srn ctrl w) Hgate)
    as (sch' & declared' & Hsch' & Hdecl' & ->).
  assert (sch' = sch) as -> by congruence.
  assert (declared' = declared) as -> by congruence.
  rewrite (checkJWT_verify_fails opts _ _ header e); [|done|done].
  apply catchAccessError_denied.
Qed.

(** A missing header, seen from the hook. *)
Lemma preValidation_no_header it declared srn ctrl w :
  metricsSafe opts srn ctrl = true →
  gateCondition opts it = true →
  x_AuthType (openapiSource it) = Some declared →
  req_headers (request w) !! "authorization"%string = None →
  preValidation opts it srn ctrl w =
  (Ok tt,
   denied (err_message (TypeError_undefined "split"))
     (withRequest (withAuthTypes declared) (entered opts srn ctrl w))).
Proof.
  intros Hsafe Hgate Hdecl Hhdr.
  rewrite (preValidation_entered _ _ _ _ _ Hsafe). unfold tryCatch.
  destruct (checkAccess_open opts it (entered opts srn ctrl w) Hgate)
    as (sch' & declared' & Hsch' & Hdecl' & ->).
  assert (declared' = declared) as -> by congruence.
  rewrite checkJWT_no_header by done.
  apply catchAccessError_denied.
Qed.

End HookOutcome.

(* ===================================================================== *)
(** ** The access-control gate: claims                                    *)
(* ===================================================================== *)

Section GateClaims.

Context `{External}.
Variable opts : Options.

Implicit Types (w : World) (it : Item) (e : Error).

(** The guards of the gate, spelled out. *)
Lemma gateCondition_spec it :
  gateCondition opts it = true ↔
  checkToken opts = true ∧ is_Some (schema it) ∧
  ∃ declared, x_AuthType (openapiSource it) = Some declared
              ∧ declared ≠ [] ∧ "None"%string ∉ declared.
Proof.
  unfold gateCondition.
  rewrite !andb_true_iff, bool_decide_eq_true.
  destruct (x_AuthType (openapiSource it)) as [declared|].
  - rewrite andb_true_iff, !negb_true_iff, Nat.eqb_neq.
    assert (existsb (λ element, String.eqb element "None") declared = false
            ↔ "None"%string ∉ declared) as ->.
    { rewrite <- not_true_iff_false, existsb_exists.
      split.
      - intros Hno Hin. apply Hno. exists "None"%string.
        by rewrite <- list_elem_of_In.
      - intros Hno (x & Hx & ->%String.eqb_eq). by apply Hno, list_elem_of_In. }
    split.
    + intros [[? ?] [? ?]]. repeat split; try done.
      exists declared. repeat split; try done. by destruct declared.
    + intros (? & ? & declared' & [= <-] & ? & ?). repeat split; try done.
      by destruct declared.
  - split; [intros [_ [=]]|]. by intros (_ & _ & ? & [=] & _).
Qed.

(** A hook that has not replied hands the request to the validator and
    then to the handler. *)
Lemma serve_proceeds (svc : service) (r : Route) hook w w' :
  preValidationHook r = Some hook →
  runHook opts (item r) hook w = (Ok tt, w') →
  reply w' = None →
  validates (item r) (request w') = true →
  serve opts svc r w =
  tryCatch (bind (emit HandlerInvoked) (λ _, runHandler svc (handler r)))
           internalError w'.
Proof.
  unfold serve, afterHook, tryCatch, bind. intros -> -> Hreply Hvalid.
  by rewrite Hreply, Hvalid.
Qed.

(** C2 (as amended): on a route with a schema (every route that has the
    hook has one, [processItem_hook_schema]) the hook enters the gate,
    that is, stamps [request.xAuthTypes] and runs [checkJWT], exactly when
    the flag is on, the route declares at least one auth type and none of
    the declared values is the sentinel [None].  With the gate entered
    the hook is [checkJWT] under the hook's [catch]; with the gate closed
    on a route that declares its list (in particular the list [None]
    alone) the hook only marks its counter and labels the request: no
    reply is sent, no token is looked at, and the request goes on to the
    validator and the handler. *)
Theorem gate_runs_iff_no_None_declared (svc : service) (r : Route) hook w :
  preValidationHook r = Some hook →
  is_Some (schema (item r)) →
  metricsSafe opts (hook_ServiceRouteName hook) (hook_controllerName hook) = true →
  xAuthTypes (request w) = None →
  let it := item r in
  let calm := entered opts (hook_ServiceRouteName hook) (hook_controllerName hook) w in
  ∃ w', runHook opts it hook w = (Ok tt, w') ∧
    (is_Some (xAuthTypes (request w')) ↔
       checkToken opts = true ∧
       ∃ declared, x_AuthType (openapiSource it) = Some declared
                   ∧ declared ≠ [] ∧ "None"%string ∉ declared) ∧
    (is_Some (xAuthTypes (request w')) →
       ∃ sch declared,
         schema it = Some sch ∧ x_AuthType (openapiSource it) = Some declared ∧
         xAuthTypes (request w') = Some declared ∧
         (Ok tt, w') =
         tryCatch (checkJWT opts (schema_operationId sch)) catchAccessError
           (withRequest (withAuthTypes declared) calm)) ∧
    (∀ declared,
       x_AuthType (openapiSource it) = Some declared →
       checkToken opts = false ∨ declared = [] ∨ "None"%string ∈ declared →
       w' = calm ∧ reply w' = reply w ∧
       (reply w = None → validates it (request calm) = true →
        serve opts svc r w =
        tryCatch (bind (emit HandlerInvoked) (λ _, runHandler svc (handler r)))
                 internalError calm)).
Proof.
  intros Hhook Hschema Hsafe Hfresh it calm. unfold runHook. fold it.
  set (srn := hook_ServiceRouteName hook) in *.
  set (ctrl := hook_controllerName hook) in *.
  destruct (preValidation_outcome opts it srn ctrl w Hsafe)
    as (w1 & _ & _ & Hout).
  assert (∃ w', preValidation opts it srn ctrl w = (Ok tt, w')) as [w' Hw'].
  { destruct Hout as [->|[message ->]]; eauto. }
  exists w'. split; [done|].
  pose proof Hw' as Hrun.
  rewrite (preValidation_entered _ _ _ _ _ Hsafe) in Hw'. fold calm in Hw'.
  assert (Hclosed : gateCondition opts it = false →
                    is_Some (x_AuthType (openapiSource it)) →
                    w' = calm).
  { intros Hgate Hdecl. unfold tryCatch in Hw'.
    rewrite checkAccess_closed in Hw' by auto. congruence. }
  assert (Hopen : gateCondition opts it = true →
    ∃ sch declared,
      schema it = Some sch ∧ x_AuthType (openapiSource it) = Some declared ∧
      xAuthTypes (request w') = Some declared ∧
      (Ok tt, w') =
      tryCatch (checkJWT opts (schema_operationId sch)) catchAccessError
        (withRequest (withAuthTypes declared) calm)).
  { intros Hgate.
    destruct (checkAccess_open opts it calm Hgate)
      as (sch & declared & Hsch & Hdecl & Heq).
    exists sch, declared. repeat split; try done.
    - unfold tryCatch in Hw'. rewrite Heq in Hw'.
      destruct (checkJWT opts _ _) as [[[]|e] w2] eqn:Hjwt;
        apply checkJWT_xAuthTypes in Hjwt;
        [|rewrite catchAccessError_denied in Hw'];
        by injection Hw' as <-.
    - unfold tryCatch in *. by rewrite <- Heq, Hw'. }
  assert (Hstamp : is_Some (xAuthTypes (request w')) →
                   gateCondition opts it = true).
  { intros Hstamped.
    destruct (gateCondition opts it) eqn:Hgate; [done|].
    exfalso. unfold tryCatch in Hw'.
    destruct (checkToken opts) eqn:Hflag; [|injection Hw' as <-; simpl in *;
      rewrite Hfresh in Hstamped; by destruct Hstamped].
    unfold checkAccess in Hw'.
    destruct (schema it) as [sch|] eqn:Hsch;
      [|injection Hw' as <-; simpl in *; rewrite Hfresh in Hstamped;
        by destruct Hstamped].
    destruct (x_AuthType (openapiSource it)) as [declared|] eqn:Hdecl.
    - rewrite (Hclosed eq_refl) in Hstamped by eauto.
      simpl in Hstamped. rewrite Hfresh in Hstamped. by destruct Hstamped.
    - unfold throw in Hw'. rewrite catchAccessError_denied in Hw'.
      injection Hw' as <-. simpl in Hstamped. rewrite Hfresh in Hstamped.
      by destruct Hstamped. }
  split; [split|split].
  - intros Hgate%Hstamp%gateCondition_spec. tauto.
  - intros [Hflag Hdecl].
    assert (Hgate : gateCondition opts it = true)
      by (apply gateCondition_spec; tauto).
    destruct (Hopen Hgate) as (_ & declared & _ & _ & -> & _). eauto.
  - intros Hstamped. by apply Hopen, Hstamp.
  - intros declared Hdecl Hwhy.
    assert (Hgate : gateCondition opts it = false).
    { destruct (gateCondition opts it) eqn:Hgate; [|done].
      apply gateCondition_spec in Hgate
        as (Hflag & _ & declared' & Hdecl' & Hne & Hnone).
      assert (declared' = declared) as -> by congruence.
      destruct Hwhy as [?|[?|?]]; [congruence|done|done]. }
    assert (w' = calm) as -> by eauto.
    split; [done|]. split; [done|]. intros Hreply Hvalid.
    eapply serve_proceeds; [exact Hhook|exact Hrun|exact Hreply|exact Hvalid].
Qed.

(** C3 (as amended): whenever the hook denies a request, the reply is
    [{ Status, Description }] under the same status code; the code is 440
    exactly when the message, split at the spaces, has the word
    [expired], and 401 otherwise; the request ends there and the handler
    is not invoked.  A token that [jwt.verify] finds expired is always
    answered 440 with a [Description] that has the word; any other error
    thrown by [jwt.verify] is answered 401 as long as neither the error
    nor the operation identifier brings that word into the message. *)
Theorem denial_status_follows_message (svc : service) (r : Route) hook w :
  preValidationHook r = Some hook →
  metricsSafe opts (hook_ServiceRouteName hook) (hook_controllerName hook) = true →
  reply w = None →
  ∃ w', runHook opts (item r) hook w = (Ok tt, w') ∧
    (∀ rp, reply w' = Some rp →
       ((code rp = 440 ∧ Status rp = 440 ∧ expiredWord (Description rp) = true)
        ∨ (code rp = 401 ∧ Status rp = 401 ∧ expiredWord (Description rp) = false))
       ∧ serve opts svc r w = (Ok tt, w')
       ∧ (¬ handlerInvoked w → ¬ handlerInvoked w')) ∧
    (∀ sch header e,
       gateCondition opts (item r) = true →
       schema (item r) = Some sch →
       req_headers (request w) !! "authorization"%string = Some header →
       jwt_verify (split " " header !! 1) (publicKey opts) = Throw e →
       let message := rethrown e (schema_operationId sch) in
       (e = TokenExpiredError →
          reply w' = Some {| code := 440; Status := 440; Description := message |}
          ∧ expiredWord message = true) ∧
       (expiredWord (err_name e) = false → expiredWord (err_message e) = false →
        expiredWord (interpolate (schema_operationId sch)) = false →
          reply w' = Some {| code := 401; Status := 401; Description := message |})).
Proof.
  intros Hhook Hsafe Hfresh. unfold runHook.
  destruct (preValidation_outcome opts (item r) _ _ w Hsafe)
    as (w1 & Hr1 & Hh1 & Hout).
  rewrite Hfresh in Hr1.
  assert (∃ w', preValidation opts (item r) (hook_ServiceRouteName hook)
                  (hook_controllerName hook) w = (Ok tt, w')
                ∧ (w' = w1 ∨ ∃ message, w' = denied message w1)) as (w' & Hw' & Hshape).
  { destruct Hout as [->|[message ->]]; eauto. }
  exists w'. split; [done|]. split.
  - intros rp Hrp. destruct Hshape as [->|[message ->]]; [congruence|].
    rewrite denied_reply in Hrp by done. injection Hrp as <-.
    rewrite denial_Description. split; [|split].
    + destruct (denial_cases message) as [[-> ->]|[-> ->]]; [left|right]; done.
    + eapply serve_replied; [done|exact Hw'|]. by rewrite denied_reply.
    + intros Hno Hyes. apply Hno, Hh1. by eapply denied_handlerInvoked.
  - intros sch header e Hgate Hsch Hhdr Hv.
    set (message := rethrown e (schema_operationId sch)).
    destruct (gateCondition_spec (item r)) as [Hspec _].
    destruct (Hspec Hgate) as (_ & _ & declared & Hdecl & _).
    rewrite (preValidation_verify_fails opts (item r) sch declared _ _ w header e)
      in Hw' by done.
    injection Hw' as <-.
    rewrite denied_reply by done. fold message.
    pose proof (expiredWord_rethrown e (schema_operationId sch)) as Hword.
    fold message in Hword. split.
    + intros ->. assert (expiredWord message = true) as Hm.
      { rewrite Hword. reflexivity. }
      split; [|done]. unfold denial. by rewrite Hm.
    + intros Hn Hm He. unfold denial. by rewrite Hword, Hn, Hm, He.
Qed.

(** C8 (as amended): with the gate entered, a header whose token
    verifies, and a payload with a non-empty allow-list: if no range of
    the list contains the caller's address, the hook denies with the
    rethrown [IpNotAllowed] message, under status 401 when the operation
    identifier has no word [expired] and under 440 when it has one; if
    some range contains the address, the hook sends nothing and the
    request carries the payload's roles, the entity id and entity type
    (or [not provided]) and the route's declared auth types. *)
Theorem ip_allow_list_enforced it sch declared srn ctrl w header payload ipList :
  metricsSafe opts srn ctrl = true →
  gateCondition opts it = true →
  schema it = Some sch →
  x_AuthType (openapiSource it) = Some declared →
  reply w = None →
  req_headers (request w) !! "authorization"%string = Some header →
  jwt_verify (split " " header !! 1) (publicKey opts) = Ok payload →
  IpList payload = Some ipList → ipList ≠ [] →
  ∃ w', preValidation opts it srn ctrl w = (Ok tt, w') ∧
    ((∀ ipRange, ipRange ∈ ipList →
        cidr_contains ipRange (req_ip (request w)) = false) →
     let message := rethrown IpNotAllowed (schema_operationId sch) in
     reply w' = Some (denial message) ∧
     (expiredWord (interpolate (schema_operationId sch)) = false →
        reply w' = Some {| code := 401; Status := 401; Description := message |}) ∧
     (expiredWord (interpolate (schema_operationId sch)) = true →
        reply w' = Some {| code := 440; Status := 440; Description := message |})) ∧
    ((∃ ipRange, ipRange ∈ ipList ∧
        cidr_contains ipRange (req_ip (request w)) = true) →
     reply w' = None ∧
     Roles (request w') = Role payload ∧
     req_EntityId (request w') = orNotProvided (EntityId payload) ∧
     req_EntityType (request w') = orNotProvided (EntityType payload) ∧
     xAuthTypes (request w') = Some declared).
Proof.
  intros Hsafe Hgate Hsch Hdecl Hfresh Hhdr Hv Hip Hne.
  rewrite (preValidation_entered _ _ _ _ _ Hsafe). unfold tryCatch.
  destruct (checkAccess_open opts it (entered opts srn ctrl w) Hgate)
    as (sch' & declared' & Hsch' & Hdecl' & ->).
  assert (sch' = sch) as -> by congruence.
  assert (declared' = declared) as -> by congruence.
  set (w0 := withRequest (withAuthTypes declared) (entered opts srn ctrl w)).
  destruct (existsb (λ ipRange, cidr_contains ipRange (req_ip (request w))) ipList)
    eqn:Hin.
  - rewrite (checkJWT_allowed opts _ w0 header payload); try done.
    + eexists; split; [reflexivity|]. split.
      * intros Hout. apply existsb_exists in Hin as (x & Hx & Hc).
        rewrite (Hout x) in Hc; [done|by apply list_elem_of_In].
      * intros _. simpl. by rewrite Hfresh.
    + intros ipList' Hip' _. assert (ipList' = ipList) as -> by congruence. done.
  - rewrite (checkJWT_ip_refused opts _ w0 header payload ipList); try done.
    rewrite catchAccessError_denied. eexists; split; [reflexivity|]. split.
    + intros _. rewrite denied_reply by done. simpl err_message.
      split; [done|]. unfold denial.
      rewrite (expiredWord_rethrown IpNotAllowed (schema_operationId sch)).
      simpl. split; intros ->; done.
    + intros (x & Hx & Hc). exfalso.
      assert (existsb (λ ipRange, cidr_contains ipRange (req_ip (request w))) ipList
              = true); [|congruence].
      apply existsb_exists. exists x. by rewrite <- list_elem_of_In.
Qed.

(** C9: with the flag on, a request to a route whose raw operation has
    no ['x-AuthType'] list is denied: reading [length] of the missing
    list throws, the hook's [catch] answers 401 with that error's
    message, the gate is not entered and the handler is not invoked. *)
Theorem undeclared_auth_types_denied (svc : service) (r : Route) hook sch w :
  preValidationHook r = Some hook →
  metricsSafe opts (hook_ServiceRouteName hook) (hook_controllerName hook) = true →
  checkToken opts = true →
  schema (item r) = Some sch →
  x_AuthType (openapiSource (item r)) = None →
  reply w = None →
  ∃ w', runHook opts (item r) hook w = (Ok tt, w') ∧
    serve opts svc r w = (Ok tt, w') ∧
    reply w' = Some {| code := 401; Status := 401;
                       Description := err_message (TypeError_undefined "length") |} ∧
    xAuthTypes (request w') = xAuthTypes (request w) ∧
    (∀ token, JwtVerify token ∈ trace w' → JwtVerify token ∈ trace w) ∧
    (¬ handlerInvoked w → ¬ handlerInvoked w').
Proof.
  intros Hhook Hsafe Hflag Hsch Hdecl Hfresh.
  assert (Hrun : runHook opts (item r) hook w =
                 (Ok tt, denied (err_message (TypeError_undefined "length"))
                           (entered opts (hook_ServiceRouteName hook)
                                    (hook_controllerName hook) w))).
  { unfold runHook. rewrite (preValidation_entered _ _ _ _ _ Hsafe).
    unfold tryCatch.
    rewrite (checkAccess_undeclared opts (item r) sch) by done.
    apply catchAccessError_denied. }
  eexists; split; [exact Hrun|].
  destruct (entered_quiet opts (hook_ServiceRouteName hook)
              (hook_controllerName hook) w) as [Hr Hh].
  split; [|split; [|split; [|split]]].
  - eapply serve_replied; [done|exact Hrun|]. rewrite denied_reply; [eauto|].
    by rewrite Hr.
  - rewrite denied_reply by (by rewrite Hr). reflexivity.
  - reflexivity.
  - intros token. unfold denied, entered; simpl.
    destruct (metrics opts) as [m|]; [destruct (bool_decide _)|];
      rewrite ?elem_of_app, ?elem_of_cons, ?elem_of_nil; intuition discriminate.
  - intros Hno Hyes. apply Hno, Hh. by eapply denied_handlerInvoked.
Qed.

End GateClaims.

(* ===================================================================== *)
(** ** The access-control gate on concrete requests                       *)
(* ===================================================================== *)

Section GateExamples.

Import Examples.

Local Abbreviation hookOf it w :=
  (preValidation (H := external) options it (operationId it) (operationId it) w).

(** C1: a request without an [authorization] header to a route that
    requires a token.  The hook answers 401, but [checkJWT] has thrown on
    [request.headers.authorization.split] before it tests for the header:
    the description is the engine's message and does not name the
    operation, and the failure sink [openapiFailures] is never called. *)
Theorem missing_header_throws_before_sink (E : External) (id : string) :
  let it := operation id "/widget/get" (Some ["JWT"%string]) VUndefined VUndefined in
  let w := incoming [] "10.1.2.3" in
  let answer :=
    {| code := 401; Status := 401;
       Description := "Cannot read properties of undefined (reading 'split')" |} in
  ∃ w', preValidation (H := E) options it id id w = (Ok tt, w') ∧
        reply w' = Some answer ∧
        trace w' = [Send answer] ∧
        ¬ notified w'.
Proof.
  intros it w answer.
  rewrite (preValidation_no_header (H := E) options it ["JWT"%string] id id w);
    try reflexivity.
  eexists; split; [reflexivity|]. split; [reflexivity|]. split; [reflexivity|].
  intros [message Hin]. simpl in Hin.
  apply list_elem_of_singleton in Hin. discriminate.
Qed.

(** C2, counterexample: a route that declares [None] next to another
    auth type declares at least one value and not all of its values
    equal the sentinel, yet the hook does not enter the gate; and a
    route that declares the lower-case [none] alone is gated, so a
    request without a token is denied. *)
Lemma gate_skipped_for_mixed_auth_types :
  let mixed := ["None"; "JWT"]%string in
  let it := operation "getWidget" "/widget/get" (Some mixed) VUndefined VUndefined in
  let lower := operation "getWidget" "/widget/get" (Some ["none"%string])
                         VUndefined VUndefined in
  let w := incoming [] "10.1.2.3" in
  (checkToken options = true ∧ mixed ≠ [] ∧
   ¬ Forall (λ declared, declared = "None"%string) mixed ∧
   ¬ Forall (λ declared, declared = "none"%string) mixed ∧
   hookOf it w = (Ok tt, entered options "getWidget" "getWidget" w) ∧
   xAuthTypes (request (entered options "getWidget" "getWidget" w)) = None)
  ∧ (∃ w', hookOf lower w = (Ok tt, w') ∧
           xAuthTypes (request w') = Some ["none"%string] ∧
           ∃ description, reply w' = Some {| code := 401; Status := 401;
                                             Description := description |}).
Proof.
  repeat split; try done.
  - intros Hall. inversion Hall as [|?? _ Hrest]; subst.
    inversion Hrest as [|?? Hjwt _]; subst. discriminate.
  - intros Hall. inversion Hall as [|?? Hnone _]; subst. discriminate.
  - eexists. split; [reflexivity|]. split; [reflexivity|]. eexists. reflexivity.
Qed.

(** C3, counterexample: on the operation named [expired], a token with a
    bad signature is not an expired token, yet the denial goes out under
    status 440. *)
Lemma forged_token_answered_440 :
  let it := operation "expired" "/widget/get" (Some ["JWT"%string]) VUndefined VUndefined in
  let w := incoming [("authorization", "Bearer forged")%string] "10.1.2.3" in
  ∃ e w',
    jwt_verify (External := external) (Some "forged"%string) (publicKey options) = Throw e ∧
    e ≠ TokenExpiredError ∧ err_name e ≠ err_name TokenExpiredError ∧
    hookOf it w = (Ok tt, w') ∧
    reply w' = Some {| code := 440; Status := 440;
                       Description := "JsonWebTokenError invalid signature for expired" |}.
Proof.
  eexists; eexists. split; [reflexivity|].
  split; [discriminate|]. split; [discriminate|]. split; reflexivity.
Qed.

(** C8, counterexample: on the operation named [expired], a caller
    outside every allowed range is denied under status 440, not 401. *)
Lemma refused_ip_answered_440 :
  let it := operation "expired" "/widget/get" (Some ["JWT"%string]) VUndefined VUndefined in
  let w := incoming [("authorization", "Bearer good")%string] "192.168.0.9" in
  jwt_verify (External := external) (Some "good"%string) (publicKey options) = Ok payload ∧
  IpList payload = Some ["10.0.0.0/8"%string] ∧
  cidr_contains (External := external) "10.0.0.0/8" "192.168.0.9" = false ∧
  ∃ w', hookOf it w = (Ok tt, w') ∧
        reply w' = Some {| code := 440; Status := 440;
                           Description :=
                             "Error IP address if out of range you permit for for expired" |}.
Proof.
  split; [reflexivity|]. split; [reflexivity|]. split; [reflexivity|].
  eexists. split; reflexivity.
Qed.

(** C10: the answer of the hook's [catch] is a function of the
    message alone: two errors with the same message get the same answer,
    whatever their kind, and the status is 440 exactly when the message
    split at the spaces has the word [expired].  So a bad signature on
    the operation named [expired] is answered 440, and an expiry that the
    verifier words without [expired] is answered 401. *)
Theorem status_depends_on_message_word :
  (∀ kind1 kind2 message w,
     catchAccessError (mkError kind1 message) w
     = catchAccessError (mkError kind2 message) w) ∧
  (∀ e w, catchAccessError e w = (Ok tt, denied (err_message e) w)) ∧
  (∀ message,
     code (denial message) = if expiredWord message then 440 else 401) ∧
  (let it := operation "expired" "/widget/get" (Some ["JWT"%string])
                       VUndefined VUndefined in
   let w := incoming [("authorization", "Bearer forged")%string] "10.1.2.3" in
   jwt_verify (External := external) (Some "forged"%string) (publicKey options)
   = Throw (mkError "JsonWebTokenError" "invalid signature") ∧
   ∃ w', hookOf it w = (Ok tt, w') ∧
         reply w' = Some {| code := 440; Status := 440;
                            Description :=
                              "JsonWebTokenError invalid signature for expired" |}) ∧
  (let it := operation "getWidget" "/widget/get" (Some ["JWT"%string])
                       VUndefined VUndefined in
   let w := incoming [("authorization", "Bearer stale")%string] "10.1.2.3" in
   jwt_verify (External := external) (Some "stale"%string) (publicKey options)
   = Throw (mkError "TokenExpiredError" "token lifetime exceeded") ∧
   ∃ w', hookOf it w = (Ok tt, w') ∧
         reply w' = Some {| code := 401; Status := 401;
                            Description :=
                              "TokenExpiredError token lifetime exceeded for getWidget" |}).
Proof.
  split; [|split; [|split; [|split]]].
  - intros kind1 kind2 message w. by rewrite !catchAccessError_denied.
  - apply catchAccessError_denied.
  - intros message. unfold denial. by destruct (expiredWord message).
  - split; [reflexivity|]. eexists. split; reflexivity.
  - split; [reflexivity|]. eexists. split; reflexivity.
Qed.

End GateExamples.

(* ===================================================================== *)
(** ** Properties of route generation                                     *)
(* ===================================================================== *)

Section RouteFacts.

Context {E : Engine}.
Variable svc : service.

Implicit Types (it : Item) (h : heap) (r : Route).



(** The store after an item: the normaliser ran on the response schemas
    when the [try] block got that far, and nothing else wrote. *)
Lemma processItem_store fuel it h r h' :
  processItem fuel svc it h = Some (r, h') →
  match schema it, split "/" (url it) !! 1 with
  | Some sch, Some _ =>
      if truthy (response sch)
      then stripResponseFormats fuel (response sch) h = Some h'
      else h' = h
  | _, _ => h' = h
  end.
Proof.
  unfold processItem, tryItem.
  destruct (schema it) as [sch|]; simpl; [|by intros [= _ <-]].
  destruct (split "/" (url it) !! 1) as [className|]; simpl; [|by intros [= _ <-]].
  destruct (truthy (response sch)); simpl.
  - destruct (stripResponseFormats fuel (response sch) h) as [h1|]; simpl; [|done].
    by destruct (resolveService _ _ _ _) as [[? ?]|?]; intros [= _ <-].
  - by destruct (resolveService _ _ _ _) as [[? ?]|?]; intros [= _ <-].
Qed.

(** The route of an item does not depend on the store. *)
Lemma processItem_route fuel it h r h' :
  processItem fuel svc it h = Some (r, h') →
  r = match schema it, split "/" (url it) !! 1 with
      | Some _, Some className =>
          match resolveService svc (operationId it) className
                               (split "/" (url it) !! 2) with
          | Ok (ServiceRouteName, hd) =>
              {| item := it; handler := hd;
                 preValidationHook :=
                   Some {| hook_ServiceRouteName := ServiceRouteName;
                           hook_controllerName := operationId it |} |}
          | Throw _ => stubRoute it
          end
      | _, _ => stubRoute it
      end.
Proof.
  unfold processItem, tryItem.
  destruct (schema it) as [sch|]; simpl; [|by intros [= <- _]].
  destruct (split "/" (url it) !! 1) as [className|]; simpl; [|by intros [= <- _]].
  destruct (if truthy (response sch) then _ else _) as [h1|]; simpl; [|done].
  by destruct (resolveService _ _ _ _) as [[? ?]|?]; intros [= <- _].
Qed.

Lemma processItem_item fuel it h r h' :
  processItem fuel svc it h = Some (r, h') → item r = it.
Proof.
  intros ->%processItem_route.
  destruct (schema it), (split "/" (url it) !! 1); try done.
  by destruct (resolveService _ _ _ _) as [[? ?]|?].
Qed.

(** A route with the hook has a schema. *)
Lemma processItem_hook_schema fuel it h r h' :
  processItem fuel svc it h = Some (r, h') →
  is_Some (preValidationHook r) → is_Some (schema (item r)).
Proof.
  intros Hrun. rewrite (processItem_item _ _ _ _ _ Hrun).
  apply processItem_route in Hrun as ->.
  destruct (schema it); [eauto|]. by intros [? ?].
Qed.

Lemma processItem_cleared fuel it h r h' :
  processItem fuel svc it h = Some (r, h') → heapCleared h h'.
Proof.
  intros Hrun%processItem_store.
  destruct (schema it) as [sch|]; [|subst; apply heapCleared_refl].
  destruct (split "/" (url it) !! 1); [|subst; apply heapCleared_refl].
  destruct (truthy (response sch)); [|subst; apply heapCleared_refl].
  eauto using stripResponseFormats_cleared.
Qed.

(** On an acyclic store every item is processed. *)
Lemma processItem_total rank fuel it h :
  acyclic rank h →
  (∀ sch, schema it = Some sch → vrank rank (response sch) < fuel) →
  ∃ r h', processItem fuel svc it h = Some (r, h').
Proof.
  intros Hacyc Hfuel. unfold processItem, tryItem.
  destruct (schema it) as [sch|]; simpl; [|eauto].
  destruct (split "/" (url it) !! 1) as [className|]; simpl; [|eauto].
  destruct (truthy (response sch)); simpl.
  - destruct (stripResponseFormats_total rank fuel (response sch) h)
      as [h1 ->]; [done|eauto|]. simpl.
    destruct (resolveService _ _ _ _) as [[? ?]|?]; eauto.
  - destruct (resolveService _ _ _ _) as [[? ?]|?]; eauto.
Qed.

Lemma generateRoutes_total rank fuel routes :
  ∀ h,
    acyclic rank h →
    (∀ it sch, it ∈ routes → schema it = Some sch →
               vrank rank (response sch) < fuel) →
    ∃ rs h', generateRoutes fuel svc routes h = Some (rs, h').
Proof.
  induction routes as [|it routes IH]; intros h Hacyc Hfuel; simpl; [eauto|].
  destruct (processItem_total rank fuel it h) as (r & h1 & Hr); [done| |].
  { intros sch. apply Hfuel. left. }
  rewrite Hr. simpl.
  destruct (IH h1) as (rs & h2 & ->).
  - eauto using acyclic_cleared, processItem_cleared.
  - intros it' sch Hin. apply Hfuel. by right.
  - simpl. eauto.
Qed.

Lemma generateRoutes_cleared fuel routes h rs h' :
  generateRoutes fuel svc routes h = Some (rs, h') → heapCleared h h'.
Proof.
  revert h rs h'. induction routes as [|it routes IH]; intros h rs h'; simpl.
  - intros [= <- <-]. apply heapCleared_refl.
  - destruct (processItem fuel svc it h) as [[r1 h1]|] eqn:Hr; simpl; [|done].
    destruct (generateRoutes fuel svc routes h1) as [[rs' h2]|] eqn:Hrs;
      simpl; [|done].
    intros [= <- <-].
    eauto using heapCleared_trans, processItem_cleared.
Qed.


End RouteFacts.

(* ===================================================================== *)
(** ** Route generation: claims                                           *)
(* ===================================================================== *)

Section RouteClaims.

Context {E : Engine}.
Variable svc : service.

Implicit Types (it : Item) (h : heap) (r : Route).



Section Requests.

Context `{External}.
Variable opts : Options.



End Requests.

(** Objects outside the response schemas of an item are not written. *)
Lemma processItem_frame fuel it h r h' l :
  processItem fuel svc it h = Some (r, h') →
  (∀ sch, schema it = Some sch → ¬ nested h (response sch) (VRef l)) →
  h' !! l = h !! l.
Proof.
  intros Hrun%processItem_store Hout.
  destruct (schema it) as [sch|]; [|by subst].
  destruct (split "/" (url it) !! 1); [|by subst].
  destruct (truthy (response sch)); [|by subst].
  eauto using stripResponseFormats_frame.
Qed.

(** C7 (as amended): the pass over the route table writes only to the
    objects nested under the routes' response schemas.  Every object
    keeps its properties, in order, and the only change to a property is
    a [format] that now holds [undefined]; an object that is nested under
    no response schema is left as it was; so a request schema is left
    untouched when none of the objects it reaches is nested under a
    response schema. *)
Theorem normaliser_frame fuel routes h rs h' :
  generateRoutes fuel svc routes h = Some (rs, h') →
  heapCleared h h' ∧
  (∀ l, (∀ it sch, it ∈ routes → schema it = Some sch →
                   ¬ nested h (response sch) (VRef l)) →
        h' !! l = h !! l) ∧
  (∀ it0 sch0 root,
     it0 ∈ routes → schema it0 = Some sch0 → root ∈ requestSchemas sch0 →
     (∀ l it sch, reaches h root l → it ∈ routes → schema it = Some sch →
                  ¬ nested h (response sch) (VRef l)) →
     ∀ l, reaches h root l → h' !! l = h !! l).
Proof.
  intros Hrun.
  assert (Hframe : ∀ l, (∀ it sch, it ∈ routes → schema it = Some sch →
                                   ¬ nested h (response sch) (VRef l)) →
                        h' !! l = h !! l).
  { intros l. revert h rs h' Hrun.
    induction routes as [|it routes' IH]; intros h rs h'; simpl.
    - by intros [= <- <-].
    - destruct (processItem fuel svc it h) as [[r1 h1]|] eqn:Hr; simpl; [|done].
      destruct (generateRoutes fuel svc routes' h1) as [[rs' h2]|] eqn:Hrs;
        simpl; [|done].
      intros [= <- <-] Hout.
      rewrite (IH _ _ _ Hrs).
      + eapply processItem_frame; [exact Hr|]. intros sch. apply Hout. left.
      + intros it' sch Hin Hsch Hn. eapply (Hout it' sch); [by right|done|].
        eapply heapCleared_nested; [|exact Hn].
        eauto using processItem_cleared. }
  split; [eauto using generateRoutes_cleared|]. split; [done|].
  intros it0 sch0 root _ _ _ Hsep l Hl. apply Hframe. eauto.
Qed.

(** C6: for a route with a schema, truthy response schemas and a URL
    template with a first segment, on an acyclic store and with a budget
    above the rank of the response schemas: the callback runs the
    normaliser on the response schemas, the normaliser returns, and
    afterwards no object nested under the response schemas, at any
    depth, has [int32] or [int64] as its [format]; every object that was
    nested under them with such a [format] is still there and now has
    [undefined] as its [format].  The map of the status codes itself is
    the one object whose own [format] the pass does not look at; when it
    had none of the two formats, it has none afterwards. *)
Theorem response_formats_stripped rank fuel it sch className h :
  acyclic rank h →
  schema it = Some sch →
  truthy (response sch) = true →
  split "/" (url it) !! 1 = Some className →
  vrank rank (response sch) < fuel →
  ∃ r h', processItem fuel svc it h = Some (r, h') ∧
    stripResponseFormats fuel (response sch) h = Some h' ∧
    (∀ w, nested h' (response sch) w →
          ¬ unsupportedFormat (getProp h' w (KName "format"))) ∧
    (∀ l, nested h (response sch) (VRef l) →
          unsupportedFormat (getProp h (VRef l) (KName "format")) →
          nested h' (response sch) (VRef l) ∧
          getProp h' (VRef l) (KName "format") = VUndefined) ∧
    (¬ unsupportedFormat (getProp h (response sch) (KName "format")) →
     ¬ unsupportedFormat (getProp h' (response sch) (KName "format"))).
Proof.
  intros Hacyc Hsch Htruthy Hcls Hfuel.
  destruct (processItem_total svc rank fuel it h) as (r & h' & Hrun); [done| |].
  { intros sch' Hsch'. by assert (sch' = sch) as -> by congruence. }
  exists r, h'. split; [done|].
  apply processItem_store in Hrun. rewrite Hsch, Hcls, Htruthy in Hrun.
  pose proof (stripResponseFormats_cleared _ _ _ _ Hrun) as Hc.
  split; [done|]. split; [|split].
  - intros w Hw Hbad. apply unknownFormat_unsupported in Hbad.
    by rewrite (stripResponseFormats_nested _ _ _ _ Hrun w Hw) in Hbad.
  - intros l Hl Hbad%unknownFormat_unsupported. split.
    + eauto using heapCleared_nested_kept.
    + eauto using stripResponseFormats_clears.
  - intros Hroot.
    destruct (heapCleared_getProp _ _ (response sch) (KName "format") Hc)
      as [->|(_ & -> & _)]; [done|].
    intros [?|?]; discriminate.
Qed.

End RouteClaims.

(* ===================================================================== *)
(** ** The claims on concrete inputs                                      *)
(* ===================================================================== *)

Section Instances.

Import Examples.

Local Abbreviation hookOf it w :=
  (preValidation (H := external) options it (operationId it) (operationId it) w).

Lemma store_acyclic : acyclic storeRank store.
Proof.
  intros l o. unfold store.
  rewrite lookup_insert. case_decide as H1; [intros [= <-]; subst l|].
  { repeat constructor. }
  rewrite lookup_insert. case_decide as H2; [intros [= <-]; subst l|done].
  repeat constructor.
Defined.

Lemma gate_runs_iff_no_None_declared_witness :
  let it := operation "getWidget" "/widget/get" (Some ["None"%string])
                      VUndefined VUndefined in
  let hook := {| hook_ServiceRouteName := "getWidget";
                 hook_controllerName := "getWidget" |} in
  let w := incoming [] "10.1.2.3" in
  preValidationHook (registered it) = Some hook ∧
  is_Some (schema it) ∧
  metricsSafe options "getWidget" "getWidget" = true ∧
  xAuthTypes (request w) = None ∧
  ∃ w', runHook (H := external) options it hook w = (Ok tt, w') ∧
        reply w' = None ∧
        serve (H := external) options registry (registered it) w =
        (Ok tt, withEvent (ServiceCall 1) (withEvent HandlerInvoked w')).
Proof.
  intros it hook w. split; [reflexivity|]. split; [eexists; reflexivity|].
  split; [reflexivity|]. split; [reflexivity|].
  destruct (gate_runs_iff_no_None_declared (H := external) options registry
              (registered it) hook w eq_refl ltac:(eexists; reflexivity)
              eq_refl eq_refl)
    as (w' & Hrun & _ & _ & Hclosed).
  exists w'. split; [exact Hrun|].
  destruct (Hclosed ["None"%string] eq_refl ltac:(right; right; left))
    as (-> & _ & Hserve).
  split; [reflexivity|].
  rewrite (Hserve eq_refl eq_refl). reflexivity.
Defined.

Lemma denial_status_follows_message_witness :
  let it := operation "getWidget" "/widget/get" (Some ["JWT"%string])
                      VUndefined VUndefined in
  let hook := {| hook_ServiceRouteName := "getWidget";
                 hook_controllerName := "getWidget" |} in
  let w := incoming [("authorization", "Bearer old")%string] "10.1.2.3" in
  preValidationHook (registered it) = Some hook ∧
  metricsSafe options "getWidget" "getWidget" = true ∧
  reply w = None ∧
  ∃ w', runHook (H := external) options it hook w = (Ok tt, w') ∧
        reply w' = Some {| code := 440; Status := 440;
                           Description :=
                             "TokenExpiredError jwt expired for getWidget" |}.
Proof.
  intros it hook w. split; [reflexivity|]. split; [reflexivity|].
  split; [reflexivity|].
  destruct (denial_status_follows_message (H := external) options registry
              (registered it) hook w eq_refl eq_refl eq_refl)
    as (w' & Hrun & _ & Hverify).
  exists w'. split; [exact Hrun|].
  destruct (Hverify _ "Bearer old"%string TokenExpiredError eq_refl eq_refl
              eq_refl eq_refl) as [Hexpired _].
  exact (proj1 (Hexpired eq_refl)).
Defined.

Lemma ip_allow_list_enforced_witness :
  let it := operation "getWidget" "/widget/get" (Some ["JWT"%string])
                      VUndefined VUndefined in
  let w := incoming [("authorization", "Bearer good")%string] "10.1.2.3" in
  metricsSafe options "getWidget" "getWidget" = true ∧
  gateCondition options it = true ∧
  reply w = None ∧
  jwt_verify (External := external) (Some "good"%string) (publicKey options)
  = Ok payload ∧
  ∃ w', hookOf it w = (Ok tt, w') ∧
        reply w' = None ∧
        Roles (request w') = VArr [VStr "admin"] ∧
        req_EntityId (request w') = VNum 7 ∧
        req_EntityType (request w') = VStr "not provided" ∧
        xAuthTypes (request w') = Some ["JWT"%string].
Proof.
  intros it w. split; [reflexivity|]. split; [reflexivity|].
  split; [reflexivity|]. split; [reflexivity|].
  destruct (ip_allow_list_enforced (H := external) options it _ ["JWT"%string]
              "getWidget" "getWidget" w "Bearer good" payload
              ["10.0.0.0/8"%string]
              eq_refl eq_refl eq_refl eq_refl eq_refl eq_refl eq_refl eq_refl
              ltac:(discriminate))
    as (w' & Hrun & _ & Hinside).
  exists w'. split; [exact Hrun|]. apply Hinside.
  exists "10.0.0.0/8"%string. split; [left|reflexivity].
Defined.

Lemma undeclared_auth_types_denied_witness :
  let it := operation "getWidget" "/widget/get" None VUndefined VUndefined in
  let hook := {| hook_ServiceRouteName := "getWidget";
                 hook_controllerName := "getWidget" |} in
  let w := incoming [("authorization", "Bearer good")%string] "10.1.2.3" in
  preValidationHook (registered it) = Some hook ∧
  checkToken options = true ∧
  x_AuthType (openapiSource it) = None ∧
  ∃ w', serve (H := external) options registry (registered it) w = (Ok tt, w') ∧
        reply w' = Some {| code := 401; Status := 401;
                           Description :=
                             "Cannot read properties of undefined (reading 'length')" |}.
Proof.
  intros it hook w. split; [reflexivity|]. split; [reflexivity|].
  split; [reflexivity|].
  destruct (undeclared_auth_types_denied (H := external) options registry
              (registered it) hook _ w eq_refl eq_refl eq_refl eq_refl eq_refl
              eq_refl)
    as (w' & _ & Hserve & Hreply & _).
  exists w'. split; [exact Hserve|exact Hreply].
Defined.



Lemma response_formats_stripped_witness :
  let it := operation "getWidget" "/widget/get" None VUndefined (VRef 1) in
  acyclic storeRank store ∧
  truthy (VRef 1) = true ∧
  split "/" (url it) !! 1 = Some "widget"%string ∧
  getProp store (VRef 2) (KName "format") = VStr "int64" ∧
  ∃ r h', processItem 3 registry it store = Some (r, h') ∧
          getProp h' (VRef 2) (KName "format") = VUndefined.
Proof.
  intros it. split; [exact store_acyclic|]. split; [reflexivity|].
  split; [reflexivity|]. split; [reflexivity|].
  destruct (response_formats_stripped registry storeRank 3 it _ "widget" store
              store_acyclic eq_refl eq_refl eq_refl ltac:(simpl; lia))
    as (r & h' & Hrun & _ & _ & Hcleared & _).
  exists r, h'. split; [exact Hrun|].
  apply Hcleared; [|right; reflexivity].
  apply nested_child. exists (KName "200"). split; [|split; reflexivity].
  simpl. left.
Defined.

(** C7, counterexample: the request body schema and the response schema
    of status 200 are one object; the pass over the response schemas
    clears the [format] that the request schema had. *)
Lemma shared_request_schema_is_written :
  let it := operation "putWidget" "/widget/put" None (VRef 2) (VRef 1) in
  ∃ sch r h',
    schema it = Some sch ∧ body sch ∈ requestSchemas sch ∧
    processItem 3 registry it store = Some (r, h') ∧
    getProp store (body sch) (KName "format") = VStr "int64" ∧
    getProp h' (body sch) (KName "format") = VUndefined ∧
    h' !! 2 ≠ store !! 2.
Proof.
  intros it. eexists; eexists; eexists.
  split; [reflexivity|]. split; [left|]. split; [reflexivity|].
  split; [reflexivity|]. split; [reflexivity|]. discriminate.
Qed.

(** In [storeWithBody] the only object nested under the response
    schemas is the one at location 2. *)
Lemma storeWithBody_nested w : nested storeWithBody (VRef 1) w → w = VRef 2.
Proof.
  assert (Hchild1 : ∀ c, childOf storeWithBody (VRef 1) c → c = VRef 2).
  { intros c (k & Hk & Hget & _). vm_compute in Hk.
    apply list_elem_of_singleton in Hk as ->. by vm_compute in Hget. }
  assert (Hchild2 : ∀ c, ¬ childOf storeWithBody (VRef 2) c).
  { intros c (k & Hk & Hget & Hobj). vm_compute in Hk.
    apply elem_of_cons in Hk as [->|Hk];
      [|apply list_elem_of_singleton in Hk as ->];
      vm_compute in Hget; by subst c. }
  intros Hn. inversion Hn as [? ? Hc|? c ? Hc Hdeep]; subst; [by apply Hchild1|].
  apply Hchild1 in Hc as ->.
  inversion Hdeep as [? ? Hc'|? ? ? Hc' _]; subst; by apply Hchild2 in Hc'.
Qed.

Lemma normaliser_frame_witness :
  let it := operation "putWidget" "/widget/put" None (VRef 3) (VRef 1) in
  generateRoutes 3 registry [it] storeWithBody
  = Some ([stubRoute it], strippedStoreWithBody) ∧
  heapCleared storeWithBody strippedStoreWithBody ∧
  strippedStoreWithBody !! 3 = storeWithBody !! 3.
Proof.
  intros it.
  assert (Hrun : generateRoutes 3 registry [it] storeWithBody
                 = Some ([stubRoute it], strippedStoreWithBody))
    by (vm_compute; reflexivity).
  split; [exact Hrun|].
  destruct (normaliser_frame registry 3 [it] storeWithBody _ _ Hrun)
    as (Hcleared & Hframe & _).
  split; [exact Hcleared|]. apply Hframe.
  intros it' sch Hin%list_elem_of_singleton Hsch Hnested. subst it'.
  injection Hsch as <-. by apply storeWithBody_nested in Hnested.
Defined.

End Instances.

(* ===================================================================== *)
(** ** More on the normaliser                                             *)
(* ===================================================================== *)

Section NormaliserMore.

Implicit Types (h : heap) (o : object) (v w c : value) (k : key).

(** In an acyclic store, what is nested under a value ranks below it. *)
Lemma childOf_rank rank h v c :
  acyclic rank h → childOf h v c → vrank rank c < vrank rank v.
Proof.
  intros Hacyc (k & _ & <- & Hobj). by apply acyclic_getProp.
Qed.

Lemma nested_rank rank h v w :
  acyclic rank h → nested h v w → vrank rank w < vrank rank v.
Proof.
  intros Hacyc. induction 1 as [v w Hc|v c w Hc _ IH].
  - by eapply childOf_rank.
  - pose proof (childOf_rank _ _ _ _ Hacyc Hc). lia.
Qed.

(** Where the guard accepts no [format] under [schema], the pass writes
    nothing. *)
Lemma stripResponseFormats_clean fuel :
  ∀ schema h h',
    (∀ w, nested h schema w →
          unknownFormat (getProp h w (KName "format")) = false) →
    stripResponseFormats fuel schema h = Some h' → h' = h.
Proof.
  induction fuel as [|fuel IH]; intros schema h h' Hclean; [done|].
  rewrite stripResponseFormats_S.
  assert (Hloop : ∀ keys, keys ⊆ forInKeys h schema →
    forIn (λ item h1,
             let child := getProp h1 schema item in
             if isObject child
             then stripResponseFormats fuel child (clearFormat h1 child)
             else Some h1) keys h = Some h' → h' = h).
  { induction keys as [|item keys IHkeys]; intros Hsub; simpl.
    - by intros [= <-].
    - assert (Hitem : item ∈ forInKeys h schema) by (apply Hsub; left).
      assert (Hsub' : keys ⊆ forInKeys h schema).
      { intros k Hk. apply Hsub. by right. }
      destruct (isObject (getProp h schema item)) eqn:Hobj; [|eauto].
      assert (Hchild : childOf h schema (getProp h schema item))
        by (by exists item).
      assert (Hsame : clearFormat h (getProp h schema item) = h).
      { unfold clearFormat. rewrite Hclean; [done|]. by apply nested_child. }
      rewrite Hsame.
      destruct (stripResponseFormats fuel _ _) as [h2|] eqn:E; [|done].
      apply IH in E as ->; [eauto|].
      intros w Hw. apply Hclean. by eapply nested_step. }
  by apply Hloop.
Qed.

(** X1: a call of the normaliser on an object of an acyclic store never
    writes to that object itself: its own [format], whatever it is,
    reads as before, and so does every other property of it. *)
Theorem stripResponseFormats_own_format_kept rank fuel l h h' :
  acyclic rank h →
  stripResponseFormats fuel (VRef l) h = Some h' →
  h' !! l = h !! l ∧ ∀ k, getProp h' (VRef l) k = getProp h (VRef l) k.
Proof.
  intros Hacyc Hrun.
  assert (Hl : h' !! l = h !! l).
  { eapply stripResponseFormats_frame; [exact Hrun|].
    intros Hn. apply (nested_rank rank) in Hn; [|done]. simpl in Hn. lia. }
  split; [done|]. intros [name|i]; simpl; by rewrite ?Hl.
Qed.

(** X2: what the pass leaves in an object that was nested under
    [schema]: the [format] reads [undefined] when the guard of the loop
    accepted it and reads as before otherwise; the object keeps its keys,
    [format] included, in their order; every other property reads as
    before. *)
Theorem stripResponseFormats_final_format fuel schema h h' l :
  stripResponseFormats fuel schema h = Some h' →
  nested h schema (VRef l) →
  getProp h' (VRef l) (KName "format") =
    (if unknownFormat (getProp h (VRef l) (KName "format"))
     then VUndefined else getProp h (VRef l) (KName "format")) ∧
  forInKeys h' (VRef l) = forInKeys h (VRef l) ∧
  ∀ name, name ≠ "format"%string →
          getProp h' (VRef l) (KName name) = getProp h (VRef l) (KName name).
Proof.
  intros Hrun Hn.
  pose proof (stripResponseFormats_cleared _ _ _ _ Hrun) as Hc.
  split; [|split].
  - destruct (unknownFormat (getProp h (VRef l) (KName "format"))) eqn:Hu.
    + eauto using stripResponseFormats_clears.
    + destruct (heapCleared_getProp _ _ (VRef l) (KName "format") Hc)
        as [->|(_ & _ & Hu')]; [done|congruence].
  - by apply heapCleared_keys.
  - intros name Hname.
    destruct (heapCleared_getProp _ _ (VRef l) (KName name) Hc)
      as [->|([= ->] & _)]; done.
Qed.

End NormaliserMore.

(* ===================================================================== *)
(** ** Generating the routes a second time                                *)
(* ===================================================================== *)

Section GenerateTwice.

Context {E : Engine}.
Variable svc : service.

Implicit Types (it : Item) (h : heap) (r : Route).

(** After an item, the guard accepts no [format] under its response
    schemas, when the normaliser ran on them. *)
Lemma processItem_clean fuel it sch className h r h' :
  processItem fuel svc it h = Some (r, h') →
  schema it = Some sch → split "/" (url it) !! 1 = Some className →
  truthy (response sch) = true →
  ∀ w, nested h' (response sch) w →
       unknownFormat (getProp h' w (KName "format")) = false.
Proof.
  intros Hrun%processItem_store Hsch Hcls Htruthy.
  rewrite Hsch, Hcls, Htruthy in Hrun.
  eauto using stripResponseFormats_nested.
Qed.

Lemma generateRoutes_clean fuel routes :
  ∀ h rs h',
    generateRoutes fuel svc routes h = Some (rs, h') →
    ∀ it sch className,
      it ∈ routes → schema it = Some sch →
      split "/" (url it) !! 1 = Some className →
      truthy (response sch) = true →
      ∀ w, nested h' (response sch) w →
           unknownFormat (getProp h' w (KName "format")) = false.
Proof.
  induction routes as [|it0 routes IH]; intros h rs h'; simpl.
  - intros _ it sch className Hin. by apply elem_of_nil in Hin.
  - destruct (processItem fuel svc it0 h) as [[r1 h1]|] eqn:Hr; simpl; [|done].
    destruct (generateRoutes fuel svc routes h1) as [[rs' h2]|] eqn:Hrs;
      simpl; [|done].
    intros [= <- <-] it sch className [->|Hin]%elem_of_cons Hsch Hcls Htruthy w Hw.
    + pose proof (generateRoutes_cleared _ _ _ _ _ _ Hrs) as Hc.
      eapply heapCleared_unknownFormat; [exact Hc|].
      eapply processItem_clean; eauto using heapCleared_nested.
    + eapply IH; eauto.
Qed.

(** On a store where the guard accepts nothing under the response
    schemas, an item leaves the store as it is. *)
Lemma processItem_again fuel it h r h' :
  (∀ sch className,
     schema it = Some sch → split "/" (url it) !! 1 = Some className →
     truthy (response sch) = true →
     ∀ w, nested h (response sch) w →
          unknownFormat (getProp h w (KName "format")) = false) →
  processItem fuel svc it h = Some (r, h') → h' = h.
Proof.
  intros Hclean Hrun%processItem_store.
  destruct (schema it) as [sch|]; [|done].
  destruct (split "/" (url it) !! 1) as [className|]; [|done].
  destruct (truthy (response sch)) eqn:Htruthy; [|done].
  eapply stripResponseFormats_clean; [|exact Hrun]. eauto.
Qed.

Lemma generateRoutes_again fuel routes :
  ∀ h rs h',
    (∀ it sch className,
       it ∈ routes → schema it = Some sch →
       split "/" (url it) !! 1 = Some className →
       truthy (response sch) = true →
       ∀ w, nested h (response sch) w →
            unknownFormat (getProp h w (KName "format")) = false) →
    generateRoutes fuel svc routes h = Some (rs, h') → h' = h.
Proof.
  induction routes as [|it0 routes IH]; intros h rs h' Hclean; simpl.
  - by intros [= _ <-].
  - destruct (processItem fuel svc it0 h) as [[r1 h1]|] eqn:Hr; simpl; [|done].
    destruct (generateRoutes fuel svc routes h1) as [[rs' h2]|] eqn:Hrs;
      simpl; [|done].
    intros [= _ <-].
    assert (h1 = h) as ->.
    { eapply processItem_again; [|exact Hr].
      intros sch className. apply Hclean. left. }
    eapply IH; [|exact Hrs].
    intros it sch className Hin. apply Hclean. by right.
Qed.

(** The routes do not depend on the store or on the budget. *)
Lemma generateRoutes_routes fuel1 fuel2 routes :
  ∀ h1 h2 rs1 rs2 h1' h2',
    generateRoutes fuel1 svc routes h1 = Some (rs1, h1') →
    generateRoutes fuel2 svc routes h2 = Some (rs2, h2') →
    rs1 = rs2.
Proof.
  induction routes as [|it0 routes IH]; intros h1 h2 rs1 rs2 h1' h2'; simpl.
  - by intros [= <- _] [= <- _].
  - destruct (processItem fuel1 svc it0 h1) as [[r1 g1]|] eqn:Hr1; simpl; [|done].
    destruct (generateRoutes fuel1 svc routes g1) as [[rs1' g1']|] eqn:Hrs1;
      simpl; [|done].
    destruct (processItem fuel2 svc it0 h2) as [[r2 g2]|] eqn:Hr2; simpl; [|done].
    destruct (generateRoutes fuel2 svc routes g2) as [[rs2' g2']|] eqn:Hrs2;
      simpl; [|done].
    intros [= <- _] [= <- _].
    apply processItem_route in Hr1, Hr2. f_equal; [congruence|eauto].
Qed.

(** X3: generating the routes of the same table a second time, on the
    store the first pass left, registers the same routes and writes
    nothing: the first pass has already cleared every [format] that the
    guard accepts. *)
Theorem generateRoutes_twice rank fuel routes h :
  acyclic rank h →
  (∀ it sch, it ∈ routes → schema it = Some sch →
             vrank rank (response sch) < fuel) →
  ∃ rs h', generateRoutes fuel svc routes h = Some (rs, h') ∧
           generateRoutes fuel svc routes h' = Some (rs, h').
Proof.
  intros Hacyc Hfuel.
  destruct (generateRoutes_total svc rank fuel routes h Hacyc Hfuel)
    as (rs & h' & Hrun).
  exists rs, h'. split; [done|].
  pose proof (generateRoutes_cleared _ _ _ _ _ _ Hrun) as Hc.
  destruct (generateRoutes_total svc rank fuel routes h') as (rs2 & h2 & Hrun2);
    [eauto using acyclic_cleared|done|].
  rewrite Hrun2. f_equal. f_equal.
  - eapply generateRoutes_routes; eassumption.
  - eapply generateRoutes_again; [|exact Hrun2].
    eapply generateRoutes_clean. exact Hrun.
Qed.

End GenerateTwice.

(* ===================================================================== *)
(** ** More on the hook                                                   *)
(* ===================================================================== *)

Section HookMore.

Context `{External}.
Variable opts : Options.

Implicit Types (w : World) (it : Item) (e : Error).

(** The hook either stops at its counter step or reaches its [try]. *)
Lemma preValidation_steps it srn ctrl w :
  preValidation opts it srn ctrl w = (Throw (TypeError_undefined "mark"), w)
  ∨ preValidation opts it srn ctrl w =
    tryCatch (if checkToken opts then checkAccess opts it else ret tt)
             catchAccessError (entered opts srn ctrl w).
Proof.
  destruct (metricsSafe opts srn ctrl) eqn:Hsafe.
  - right. by apply preValidation_entered.
  - left. unfold metricsSafe in Hsafe.
    unfold preValidation, markMetrics, bind.
    destruct (metrics opts) as [m|]; [|done].
    destruct (bool_decide (srn +:+ _ ∈ _)); [|done].
    by destruct (bool_decide (ctrl +:+ _ ∈ _)).
Qed.

(** The ways out of [checkJWT], with the world each leaves. *)
Lemma checkJWT_cases entity w :
  checkJWT opts entity w = (Throw (TypeError_undefined "split"), w)
  ∨ (∃ token message,
       checkJWT opts entity w =
       (Throw (mkError "Error" message), withEvent (JwtVerify token) w))
  ∨ (∃ token payload,
       checkJWT opts entity w =
       (Ok tt, withRequest (withClaims payload) (withEvent (JwtVerify token) w))).
Proof.
  destruct (req_headers (request w) !! "authorization"%string) as [header|] eqn:Hh;
    [|left; by apply checkJWT_no_header].
  right.
  destruct (jwt_verify (split " " header !! 1) (publicKey opts)) as [payload|e]
    eqn:Hv; [|left; eauto using checkJWT_verify_fails].
  destruct (IpList payload) as [ipList|] eqn:Hip.
  - destruct (decide (ipList = [])) as [->|Hne].
    + right. exists (split " " header !! 1), payload.
      apply checkJWT_allowed; [done|done|].
      intros ipList' Hip' Hne. rewrite Hip in Hip'. by simplify_eq.
    + destruct (existsb (λ ipRange, cidr_contains ipRange (req_ip (request w)))
                        ipList) eqn:Hin.
      * right. exists (split " " header !! 1), payload.
        apply checkJWT_allowed; [done|done|].
        intros ipList' Hip' _. rewrite Hip in Hip'. by simplify_eq.
      * left. eauto using checkJWT_ip_refused.
  - right. exists (split " " header !! 1), payload.
    apply checkJWT_allowed; [done|done|].
    intros ipList' Hip'. rewrite Hip in Hip'. done.
Qed.

(** The ways through the guarded [checkAccess]. *)
Lemma checkAccess_cases it w :
  (if checkToken opts then checkAccess opts it else ret tt) w = (Ok tt, w)
  ∨ (if checkToken opts then checkAccess opts it else ret tt) w
    = (Throw (TypeError_undefined "length"), w)
  ∨ (∃ sch declared,
       (if checkToken opts then checkAccess opts it else ret tt) w =
       checkJWT opts (schema_operationId sch)
                (withRequest (withAuthTypes declared) w)).
Proof.
  unfold checkAccess.
  destruct (checkToken opts); [|by left].
  destruct (schema it) as [sch|]; [|by left].
  destruct (x_AuthType (openapiSource it)) as [declared|]; [|right; by left].
  destruct (negb (length declared =? 0) && negb (existsb _ declared));
    [|by left].
  right. right. by exists sch, declared.
Qed.

(** What the guarded [checkAccess] adds to the trace: nothing, or one
    call of the verifier. *)
Lemma checkAccess_trace it w res w' :
  (if checkToken opts then checkAccess opts it else ret tt) w = (res, w') →
  trace w' = trace w ∨ ∃ token, trace w' = trace w ++ [JwtVerify token].
Proof.
  destruct (checkAccess_cases it w) as [->|[->|(sch & declared & ->)]];
    [intros [= _ <-]; by left..|].
  destruct (checkJWT_cases (schema_operationId sch)
              (withRequest (withAuthTypes declared) w))
    as [->|[(token & message & ->)|(token & payload & ->)]];
    intros [= _ <-]; simpl; eauto.
Qed.

(** A throw of the guarded [checkAccess] leaves the claim slots alone. *)
Lemma checkAccess_throw_claims it w e w' :
  (if checkToken opts then checkAccess opts it else ret tt) w = (Throw e, w') →
  stampedClaims (request w') = stampedClaims (request w).
Proof.
  destruct (checkAccess_cases it w) as [->|[->|(sch & declared & ->)]];
    [done|by intros [= _ <-]|].
  destruct (checkJWT_cases (schema_operationId sch)
              (withRequest (withAuthTypes declared) w))
    as [->|[(token & message & ->)|(token & payload & ->)]];
    [by intros [= _ <-]..|done].
Qed.

(** X4: [checkJWT] reads the [authorization] header through its second
    space-delimited segment only: two headers with the same second
    segment give the same result and the same world, but for the header
    itself.  The scheme word and whatever follows the token are not
    looked at. *)
Theorem checkJWT_reads_second_segment entity w header1 header2 :
  split " " header1 !! 1 = split " " header2 !! 1 →
  ∃ res w1 w2,
    checkJWT opts entity (withAuthorization header1 w) = (res, w1) ∧
    checkJWT opts entity (withAuthorization header2 w) = (res, w2) ∧
    withAuthorization header2 w1 = w2.
Proof.
  intros Hseg.
  assert (Hh : ∀ header,
            req_headers (request (withAuthorization header w))
              !! "authorization"%string = Some header).
  { intros header. simpl. apply lookup_insert_eq. }
  assert (Hip : ∀ header, req_ip (request (withAuthorization header w))
                          = req_ip (request w)) by done.
  destruct (jwt_verify (split " " header2 !! 1) (publicKey opts)) as [payload|e]
    eqn:Hv.
  - destruct (IpList payload) as [ipList|] eqn:Hlist;
      [destruct (decide (ipList = [])) as [->|Hne];
       [|destruct (existsb (λ ipRange, cidr_contains ipRange (req_ip (request w)))
                           ipList) eqn:Hin]|].
    1,2,4:
      rewrite (checkJWT_allowed opts entity _ header1 payload (Hh header1));
        [|by rewrite Hseg|intros ipList' Hip' ?; rewrite Hlist in Hip';
                          simplify_eq; by rewrite ?Hip];
      rewrite (checkJWT_allowed opts entity _ header2 payload (Hh header2));
        [|done|intros ipList' Hip' ?; rewrite Hlist in Hip';
               simplify_eq; by rewrite ?Hip];
      eexists; eexists; eexists; split; [reflexivity|]; split; [reflexivity|];
      rewrite Hseg; unfold withAuthorization, withRequest, withEvent; simpl;
      by rewrite insert_insert_eq.
    rewrite (checkJWT_ip_refused opts entity _ header1 payload ipList (Hh header1));
      [|by rewrite Hseg|done|done|by rewrite Hip].
    rewrite (checkJWT_ip_refused opts entity _ header2 payload ipList (Hh header2));
      [|done|done|done|by rewrite Hip].
    eexists; eexists; eexists; split; [reflexivity|]; split; [reflexivity|].
    rewrite Hseg. unfold withAuthorization, withRequest, withEvent; simpl.
    by rewrite insert_insert_eq.
  - rewrite (checkJWT_verify_fails opts entity _ header1 e (Hh header1));
      [|by rewrite Hseg].
    rewrite (checkJWT_verify_fails opts entity _ header2 e (Hh header2)); [|done].
    eexists; eexists; eexists; split; [reflexivity|]; split; [reflexivity|].
    rewrite Hseg. unfold withAuthorization, withRequest, withEvent; simpl.
    by rewrite insert_insert_eq.
Qed.

(** X5: a request that the hook answers carries nothing from the token:
    the roles, the entity id and the entity type of the request are as
    they arrived.  The payload is copied only after the address check,
    as the last step of [checkJWT]. *)
Theorem denied_request_keeps_claims it srn ctrl w res w' :
  reply w = None →
  preValidation opts it srn ctrl w = (res, w') →
  is_Some (reply w') →
  stampedClaims (request w') = stampedClaims (request w).
Proof.
  intros Hfresh Hrun [rp Hrp].
  destruct (preValidation_steps it srn ctrl w) as [Hstop|Hgo].
  - rewrite Hstop in Hrun. injection Hrun as _ <-. congruence.
  - rewrite Hgo in Hrun. unfold tryCatch in Hrun.
    destruct ((if checkToken opts then checkAccess opts it else ret tt)
                (entered opts srn ctrl w)) as [[[]|e] w1] eqn:Hgate.
    + injection Hrun as _ <-.
      destruct (checkAccess_quiet opts _ _ _ _ Hgate) as [Hr _].
      simpl in Hr. congruence.
    + rewrite catchAccessError_denied in Hrun. injection Hrun as _ <-.
      transitivity (stampedClaims (request w1)); [done|].
      by rewrite (checkAccess_throw_claims _ _ _ _ Hgate).
Qed.

(** X6: whatever the request, the hook adds to the trace at most one
    counter mark, then at most one call of [jwt.verify], then at most one
    reply, and nothing else; in particular it never calls the failure
    sink [openapiFailures] and never the handler. *)
Theorem hook_trace_shape it srn ctrl w :
  ∃ marks verifies sends,
    trace (preValidation opts it srn ctrl w).2
    = trace w ++ marks ++ verifies ++ sends ∧
    length marks ≤ 1 ∧ length verifies ≤ 1 ∧ length sends ≤ 1 ∧
    forallb isMark marks = true ∧ forallb isVerify verifies = true ∧
    forallb isSend sends = true.
Proof.
  destruct (preValidation_steps it srn ctrl w) as [-> | ->].
  { exists [], [], []. simpl. rewrite app_nil_r. repeat split; lia. }
  assert (∃ marks, trace (entered opts srn ctrl w) = trace w ++ marks ∧
                   length marks ≤ 1 ∧ forallb isMark marks = true)
    as (marks & Hmarks & Hlen & Hall).
  { unfold entered; simpl.
    destruct (metrics opts) as [m|]; [destruct (bool_decide _)|];
      eexists; (split; [reflexivity|]); simpl; split; (lia || done). }
  exists marks. unfold tryCatch.
  destruct ((if checkToken opts then checkAccess opts it else ret tt)
              (entered opts srn ctrl w)) as [[[]|e] w1] eqn:Hgate;
    destruct (checkAccess_trace _ _ _ _ Hgate) as [Ht|[token Ht]];
    rewrite ?catchAccessError_denied; simpl; rewrite Ht, Hmarks.
  - exists [], []. rewrite !app_nil_r. simpl. repeat split; (lia || done).
  - exists [JwtVerify token], []. rewrite app_nil_r, <- app_assoc. simpl.
    repeat split; (lia || done).
  - exists [], [Send (denial (err_message e))]. rewrite <- !app_assoc. simpl.
    repeat split; (lia || done).
  - exists [JwtVerify token], [Send (denial (err_message e))].
    rewrite <- !app_assoc. simpl. repeat split; (lia || done).
Qed.

End HookMore.

(* ===================================================================== *)
(** ** More on the generated routes                                       *)
(* ===================================================================== *)

Section RoutesMore.

Context {E : Engine}.
Context `{External}.
Variable svc : service.

Implicit Types (it : Item) (h : heap) (r : Route) (w : World).



(** X8: when [opts.metrics] has a counter under [ServiceRouteName] +
    [suffix.total] and none under [controllerName] + [suffix.total], the
    hook throws on [mark] before it labels the request: the host answers
    500, no token is verified and the handler is not invoked, whatever
    the request carries. *)
Theorem counter_mismatch_answers_500 opts r hook m w :
  preValidationHook r = Some hook →
  metrics opts = Some m →
  hook_ServiceRouteName hook +:+ suffix_total m ∈ counters m →
  hook_controllerName hook +:+ suffix_total m ∉ counters m →
  reply w = None →
  let answer :=
    {| code := 500; Status := 500;
       Description := "Cannot read properties of undefined (reading 'mark')" |} in
  serve opts svc r w =
  (Ok tt, {| request := request w; reply := Some answer;
             trace := trace w ++ [Send answer] |}).
Proof.
  intros Hhook Hm Hhas Hlacks Hfresh answer.
  unfold serve, runHook, tryCatch, bind, preValidation, markMetrics, bind,
    internalError, send.
  rewrite Hhook, Hm.
  rewrite (bool_decide_eq_true_2 _ Hhas), (bool_decide_eq_false_2 _ Hlacks).
  simpl. by rewrite Hfresh.
Qed.

(** X9: the resolver reads the service object under the operation
    identifier and under the lower-case form of a string only: two
    service objects that agree on the operation identifier and on every
    key that is the engine's lower-case form of some string resolve a
    route alike.  A namespace stored under a key that [toLowerCase]
    never returns is never found. *)
Theorem resolveService_reads_lower_case_keys (svc' : service)
    controllerName className methodName :
  serviceGet svc controllerName = serviceGet svc' controllerName →
  (∀ s, serviceGet svc (toLowerCase s) = serviceGet svc' (toLowerCase s)) →
  resolveService svc controllerName className methodName
  = resolveService svc' controllerName className methodName.
Proof.
  intros Hdirect Hlower. unfold resolveService.
  by rewrite Hdirect, (Hlower className).
Qed.


End RoutesMore.

(* ===================================================================== *)
(** ** The plugin entry point: errors at start-up                         *)
(* ===================================================================== *)

Section StartupFacts.

Context {E : Engine}.
Variable Specification : Type.
Variable require : string → result provided.
Variable parse : Specification → result ParsedConfig.

(** X11: a service given by a path that the loader cannot load stops the
    plugin with [failed to load <path>], whatever the loader threw and
    whatever the specification is; nothing is registered and the store
    is not written. *)
Theorem unloadable_service_fails_first fuel specification path e h :
  require path = Throw e →
  fastifyOpenapiGlue Specification require parse fuel specification
                     (ByPath path) h
  = Some (Throw (mkError "Error" ("failed to load " +:+ path)), h).
Proof.
  intros Hload. unfold fastifyOpenapiGlue, getObject. by rewrite Hload.
Qed.

(** X12: a service that resolves to something that is not an object
    ([null], a primitive, or a function left uncalled: one exported by a
    module, or returned by a factory) stops the plugin with
    ['service' parameter must refer to an object], unless the
    specification does not parse, in which case the parser's error comes
    first; nothing is registered and the store is not written. *)
Theorem non_object_service_rejected fuel specification data p h :
  getObject require data = Ok p →
  providedIsObject p = false →
  fastifyOpenapiGlue Specification require parse fuel specification data h
  = Some (match parse specification with
          | Throw e => Throw e
          | Ok _ => Throw (mkError "Error"
                             "'service' parameter must refer to an object")
          end, h).
Proof.
  intros Hget Hnot. unfold fastifyOpenapiGlue. rewrite Hget.
  destruct (parse specification) as [config|e]; [|done].
  by destruct p.
Qed.

End StartupFacts.

(* ===================================================================== *)
(** ** Instances of the further properties                                *)
(* ===================================================================== *)

Section MoreInstances.

Import Examples MoreExamples.

Lemma schemaStore_acyclic : acyclic schemaRank schemaStore.
Proof.
  intros l o. unfold schemaStore.
  rewrite lookup_insert. case_decide as H1; [intros [= <-]; subst l|].
  { repeat constructor. }
  rewrite lookup_insert. case_decide as H2; [intros [= <-]; subst l|done].
  repeat constructor.
Defined.

Lemma stripResponseFormats_own_format_kept_witness :
  acyclic schemaRank schemaStore ∧
  ∃ h', stripResponseFormats 3 (VRef 1) schemaStore = Some h' ∧
        getProp schemaStore (VRef 1) (KName "format") = VStr "int32" ∧
        getProp h' (VRef 1) (KName "format") = VStr "int32".
Proof.
  split; [exact schemaStore_acyclic|].
  eexists. split; [reflexivity|]. split; [reflexivity|].
  destruct (stripResponseFormats_own_format_kept schemaRank 3 1 schemaStore _
              schemaStore_acyclic eq_refl) as [_ Hsame].
  rewrite Hsame. reflexivity.
Defined.

Lemma stripResponseFormats_final_format_witness :
  nested schemaStore (VRef 1) (VRef 2) ∧
  ∃ h', stripResponseFormats 3 (VRef 1) schemaStore = Some h' ∧
        getProp h' (VRef 2) (KName "format") = VStr "date-time" ∧
        forInKeys h' (VRef 2) = [KName "format"; KName "title"] ∧
        getProp h' (VRef 2) (KName "title") = VStr "when".
Proof.
  assert (Hnested : nested schemaStore (VRef 1) (VRef 2)).
  { apply nested_child. exists (KName "items").
    split; [|split; reflexivity]. simpl. right; right; left. }
  split; [exact Hnested|].
  eexists. split; [reflexivity|].
  destruct (stripResponseFormats_final_format 3 (VRef 1) schemaStore _ 2
              eq_refl Hnested) as (Hformat & Hkeys & Hrest).
  split; [exact Hformat|]. split; [exact Hkeys|].
  exact (Hrest "title"%string ltac:(discriminate)).
Defined.

Lemma generateRoutes_twice_witness :
  let it := operation "getWidget" "/widget/get" None VUndefined (VRef 1) in
  acyclic storeRank store ∧
  ∃ rs h', generateRoutes 3 registry [it] store = Some (rs, h') ∧
           generateRoutes 3 registry [it] h' = Some (rs, h').
Proof.
  intros it. split; [exact store_acyclic|].
  apply (generateRoutes_twice registry storeRank 3 [it] store store_acyclic).
  intros it' sch Hin%list_elem_of_singleton Hsch. subst it'.
  injection Hsch as <-. simpl. lia.
Defined.

Lemma checkJWT_reads_second_segment_witness :
  let w := incoming [] "10.1.2.3" in
  split " " "Bearer good" !! 1 = split " " "Basic good" !! 1 ∧
  ∃ res w1 w2,
    checkJWT (H := external) options (Some "getWidget"%string)
             (withAuthorization "Bearer good" w) = (res, w1) ∧
    checkJWT (H := external) options (Some "getWidget"%string)
             (withAuthorization "Basic good" w) = (res, w2) ∧
    withAuthorization "Basic good" w1 = w2.
Proof.
  intros w. split; [reflexivity|].
  exact (checkJWT_reads_second_segment (H := external) options
           (Some "getWidget"%string) w "Bearer good" "Basic good" eq_refl).
Defined.

Lemma denied_request_keeps_claims_witness :
  let it := operation "getWidget" "/widget/get" (Some ["JWT"%string])
                      VUndefined VUndefined in
  let w := incoming [("authorization", "Bearer good")%string] "192.168.0.1" in
  let out := preValidation (H := external) options it "getWidget" "getWidget" w in
  reply w = None ∧
  jwt_verify (External := external) (Some "good"%string) (publicKey options)
  = Ok payload ∧
  is_Some (reply out.2) ∧
  stampedClaims (request out.2) = (VUndefined, VUndefined, VUndefined).
Proof.
  intros it w out. split; [reflexivity|]. split; [reflexivity|].
  assert (Hsent : is_Some (reply out.2)) by (eexists; reflexivity).
  split; [exact Hsent|].
  rewrite (denied_request_keeps_claims (H := external) options it
             "getWidget" "getWidget" w out.1 out.2 eq_refl
             (surjective_pairing out) Hsent).
  reflexivity.
Defined.


Lemma counter_mismatch_answers_500_witness :
  let it := operation "readWidget" "/Widget/get" (Some ["JWT"%string])
                      VUndefined (VRef 1) in
  let w := incoming [("authorization", "Bearer good")%string] "10.1.2.3" in
  ∃ r h', processItem 3 registry it store = Some (r, h') ∧
          handler r = Namespaced "widget" "Widgetget" ∧
          ∃ w', serve (H := external) groupedCounters registry r w = (Ok tt, w') ∧
                trace w' =
                [Send {| code := 500; Status := 500;
                         Description :=
                           "Cannot read properties of undefined (reading 'mark')" |}].
Proof.
  intros it w. eexists. eexists. split; [reflexivity|]. split; [reflexivity|].
  eexists. split.
  - eapply (counter_mismatch_answers_500 (H := external) registry groupedCounters)
      with (m := {| counters := {[ "WidgetgetTotal"%string ]};
                    suffix_total := "Total" |}).
    + reflexivity.
    + reflexivity.
    + apply (bool_decide_unpack _). vm_compute. exact I.
    + apply (bool_decide_unpack _). vm_compute. exact I.
    + reflexivity.
  - reflexivity.
Defined.

(** An operation named after a property the service object inherits
    resolves to that property. *)
Example inherited_name_resolves :
  resolveService registry "toString" "gadget" (Some "remove"%string)
  = Ok ("toString"%string, Direct "toString").
Proof. reflexivity. Qed.

(** A namespace may be a function: a class with a static method. *)
Example static_method_resolves :
  let widgets :=
    ECallable 7 (λ name, if String.eqb name "Widgetget"
                         then functionEntry 2 else EUndefined) in
  resolveService (plainObject [("widget"%string, widgets)])
                 "readWidget" "Widget" (Some "get"%string)
  = Ok ("Widgetget"%string, Namespaced "widget" "Widgetget").
Proof. reflexivity. Qed.

(** The one namespace an empty object literal inherits: the route
    [/constructor/] resolves to [Object.constructor]. *)
Example inherited_namespace_resolves :
  resolveService (plainObject []) "readWidget" "constructor" (Some ""%string)
  = Ok ("constructor"%string, Namespaced "constructor" "constructor").
Proof. reflexivity. Qed.

Lemma lowerAscii_idem c : lowerAscii (lowerAscii c) = lowerAscii c.
Proof. destruct c as [[] [] [] [] [] [] [] []]; reflexivity. Qed.

Lemma asciiLowerCase_idem s : asciiLowerCase (asciiLowerCase s) = asciiLowerCase s.
Proof. induction s as [|c s IH]; simpl; [done|]. by rewrite lowerAscii_idem, IH. Qed.

(** The added namespace is stored under a key that is the lower-case
    form of no string. *)
Lemma capitalised_namespace_unseen s :
  serviceGet registry (toLowerCase s) = serviceGet capitalised (toLowerCase s).
Proof.
  unfold serviceGet, registry, capitalised, plainObject. cbn [member].
  destruct (String.eqb "getWidget" (toLowerCase s)); [done|].
  destruct (String.eqb "widget" (toLowerCase s)); [done|].
  destruct (String.eqb "Widget" (toLowerCase s)) eqn:Hkey; [|done].
  apply String.eqb_eq in Hkey. simpl in Hkey.
  pose proof (asciiLowerCase_idem s) as Hidem.
  rewrite <- Hkey in Hidem. discriminate Hidem.
Defined.

Lemma resolveService_reads_lower_case_keys_witness :
  entryCallable (entryGet (serviceGet capitalised "Widget") "Widgetget") = Some 3 ∧
  resolveService capitalised "readWidget" "Widget" (Some "get"%string)
  = Ok ("Widgetget"%string, Namespaced "widget" "Widgetget") ∧
  ∀ w, runHandler capitalised (Namespaced "widget" "Widgetget") w
       = (Ok tt, withEvent (ServiceCall 2) w).
Proof.
  split; [reflexivity|]. split; [|reflexivity].
  rewrite <- (resolveService_reads_lower_case_keys registry capitalised
                "readWidget" "Widget" (Some "get"%string) eq_refl
                capitalised_namespace_unseen).
  reflexivity.
Defined.


Lemma unloadable_service_fails_first_witness :
  fastifyOpenapiGlue bool loader parser 3 false (ByPath "./missing.js") store
  = Some (Throw (mkError "Error" "failed to load ./missing.js"), store).
Proof.
  exact (unloadable_service_fails_first bool loader parser 3 false
           "./missing.js" _ store eq_refl).
Defined.

Lemma non_object_service_rejected_witness :
  getObject loader (ByPath "./service.js") = Ok PFunction ∧
  fastifyOpenapiGlue bool loader parser 3 true (ByPath "./service.js") store
  = Some (Throw (mkError "Error" "'service' parameter must refer to an object"),
          store).
Proof.
  split; [reflexivity|].
  exact (non_object_service_rejected bool loader parser 3 true
           (ByPath "./service.js") PFunction store eq_refl eq_refl).
Defined.

End MoreInstances.
